(** * Nested type concretization (lib/AST/RequirementMachine/ConcreteTypeWitness.cpp)

    A shallow embedding of [PropertyMap::concretizeNestedTypesFromConcreteParents]
    and the four methods it drives, together with the properties of the
    natural-language specification that concern them.

    The C++ methods mutate a [RewriteSystem] through a reference and a cache
    that is a member of the [PropertyMap]; here they are functions in a small
    state-and-failure monad.  Classes that the file only uses (types, symbols,
    rules, the rewrite system) are embedded as far as the file observes them;
    collaborators whose bodies live in other files are the fields of one
    record, [Collaborators], over which every definition is parametrised. *)

From stdpp Require Import base option list strings gmap.

Set Default Proof Using "Type".
Set Warnings "-register-all".

(** ** AST: declarations and canonical types *)

Record AssociatedTypeDecl := mkAssoc { assocName : string }.

Record ProtocolDecl := mkProto {
  protoName : string;
  AssociatedTypeMembers : list AssociatedTypeDecl
}.

Inductive RequirementKind := Conformance | Superclass | SameType | Layout.

(** [Nominal "Int" []] is a ground type, [Nominal "Foo" [a; b]] a bound
    generic one; [DependentMemberType b P "X"] is [b.[P:X]];
    [ErrorType t] is what [ErrorType::get(t)] returns. *)
Inductive CanType :=
| GenericTypeParamType (depth index : nat)
| DependentMemberType (base : CanType) (proto : ProtocolDecl) (name : string)
| Nominal (name : string) (args : list CanType)
| ErrorType (original : CanType).

Global Instance AssociatedTypeDecl_eq_dec : EqDecision AssociatedTypeDecl.
Proof. solve_decision. Defined.
Global Instance ProtocolDecl_eq_dec : EqDecision ProtocolDecl.
Proof. solve_decision. Defined.
Global Instance RequirementKind_eq_dec : EqDecision RequirementKind.
Proof. solve_decision. Defined.

Lemma CanType_eq_dec_rec : ∀ a b : CanType, {a = b} + {a ≠ b}.
Proof.
  fix IH 1. intros a b. decide equality;
    try apply (decide_rel (=@{string}));
    try apply (decide_rel (=@{nat}));
    try apply (decide_rel (=@{ProtocolDecl})).
  apply (List.list_eq_dec IH).
Defined.
Global Instance CanType_eq_dec : EqDecision CanType := CanType_eq_dec_rec.

(** ** Terms and symbols *)

(** A term is a sequence of symbols; the symbols that describe a concrete
    type carry a schema and the terms that fill its slots. *)
Inductive Symbol :=
| SymName (name : string)
| SymProtocol (proto : ProtocolDecl)
| SymAssociatedType (proto : ProtocolDecl) (name : string)
| SymGenericParam (depth index : nat)
| SymSuperclass (schema : CanType) (substitutions : list (list Symbol))
| SymConcreteType (schema : CanType) (substitutions : list (list Symbol))
| SymConcreteConformance (schema : CanType) (substitutions : list (list Symbol))
                         (proto : ProtocolDecl).

Abbreviation Term := (list Symbol).
Abbreviation MutableTerm := (list Symbol).

Lemma Symbol_eq_dec_rec : ∀ a b : Symbol, {a = b} + {a ≠ b}.
Proof.
  fix IH 1. intros a b. decide equality;
    try apply (decide_rel (=@{string}));
    try apply (decide_rel (=@{nat}));
    try apply (decide_rel (=@{ProtocolDecl}));
    try apply (decide_rel (=@{CanType}));
    apply (List.list_eq_dec (List.list_eq_dec IH)).
Defined.
Global Instance Symbol_eq_dec : EqDecision Symbol := Symbol_eq_dec_rec.


(** Modelled from the spec: the accessors of [Symbol] are declared in
    Symbol.h; section 3 gives the concrete-type, superclass and conformance
    symbols a schema and substitution terms, and the conformance and
    member-type symbols an interface.  [None] stands for the assertion on
    the kind of the symbol that fails. *)

Definition getConcreteType (s : Symbol) : option CanType :=
  match s with
  | SymSuperclass c _ | SymConcreteType c _ | SymConcreteConformance c _ _ => Some c
  | _ => None
  end.

Definition getSubstitutions (s : Symbol) : option (list Term) :=
  match s with
  | SymSuperclass _ l | SymConcreteType _ l | SymConcreteConformance _ l _ => Some l
  | _ => None
  end.

Definition getProtocol (s : Symbol) : option ProtocolDecl :=
  match s with
  | SymProtocol p | SymAssociatedType p _ | SymConcreteConformance _ _ p => Some p
  | _ => None
  end.

(** Modelled from the spec: [Symbol::prependPrefixToConcreteSubstitutions]
    is declared in Symbol.h; section 4.4 says the substitution terms are
    re-prefixed by the extra leading path segment. *)
Definition prependPrefixToConcreteSubstitutions (prefix : MutableTerm) (s : Symbol) : Symbol :=
  match s with
  | SymSuperclass c l => SymSuperclass c (map (app prefix) l)
  | SymConcreteType c l => SymConcreteType c (map (app prefix) l)
  | SymConcreteConformance c l p => SymConcreteConformance c (map (app prefix) l) p
  | _ => s
  end.

(** Modelled from the spec: [Term::getRootProtocol] is declared in Term.h;
    section 4.2 step 6 distinguishes a key rooted in an interface's own
    requirement signature from a top-level parameter. *)
Definition getRootProtocol (key : Term) : option ProtocolDecl :=
  match key with
  | SymProtocol p :: _ | SymAssociatedType p _ :: _ => Some p
  | _ => None
  end.

(** Modelled from the spec: [TypeBase::isTypeParameter] and
    [TypeBase::hasTypeParameter] are declared in Types.h.  An abstract
    witness is a generic parameter followed by member-type projections; a
    fully concrete one mentions no generic parameter. *)
Fixpoint isTypeParameter (t : CanType) : bool :=
  match t with
  | GenericTypeParamType _ _ => true
  | DependentMemberType b _ _ => isTypeParameter b
  | _ => false
  end.

Fixpoint hasTypeParameter (t : CanType) : bool :=
  match t with
  | GenericTypeParamType _ _ => true
  | DependentMemberType b _ _ => hasTypeParameter b
  | Nominal _ args => existsb hasTypeParameter args
  | ErrorType _ => false
  end.

(** ** Conformances and requirements *)

Inductive Requirement :=
| ReqConformance (subject : CanType) (proto : ProtocolDecl)
| ReqSuperclass (subject superclass : CanType)
| ReqSameType (first second : CanType)
| ReqLayout (subject : CanType) (layout : string).

Definition getKind (req : Requirement) : RequirementKind :=
  match req with
  | ReqConformance _ _ => Conformance
  | ReqSuperclass _ _ => Superclass
  | ReqSameType _ _ => SameType
  | ReqLayout _ _ => Layout
  end.

(** Modelled from the spec: [ProtocolConformance] is declared in
    ProtocolConformance.h; section 3 describes the handle by its two
    queries, the witness of a member type and the conditional requirements. *)
Record ProtocolConformance := mkConformance {
  getType : CanType;
  getProtocolDecl : ProtocolDecl;
  TypeWitnesses : list (AssociatedTypeDecl * CanType);
  getConditionalRequirements : list Requirement
}.

(** [concrete->getTypeWitness(assocType)]; a null [Type] is [None]. *)
Definition getTypeWitness (c : ProtocolConformance) (a : AssociatedTypeDecl) : option CanType :=
  (λ hit, hit.2.2) <$> list_find (λ p, p.1 = a) (TypeWitnesses c).

(** What [ModuleDecl::lookupConformance] answers. *)
Inductive ProtocolConformanceRef :=
| InvalidConformance
| AbstractConformance (proto : ProtocolDecl)
| ConcreteConformance (c : ProtocolConformance).

(** ** Rewrite paths, rules and the rewrite system *)

Inductive RewriteStep :=
| forRewriteRule (startOffset endOffset ruleID : nat) (inverse : bool)
| forRelation (startOffset relationID : nat) (inverse : bool)
| forPrefixSubstitutions (prefixLength endOffset : nat) (inverse : bool)
| otherStep (kind arg : nat) (inverse : bool).

Abbreviation RewritePath := (list RewriteStep).

Definition invertStep (s : RewriteStep) : RewriteStep :=
  match s with
  | forRewriteRule a b c i => forRewriteRule a b c (negb i)
  | forRelation a b i => forRelation a b (negb i)
  | forPrefixSubstitutions a b i => forPrefixSubstitutions a b (negb i)
  | otherStep a b i => otherStep a b (negb i)
  end.

(** Modelled from the spec: [RewritePath::invert] is declared in
    RewriteLoop.h; section 4.4 says it inverts the whole path, which then
    runs in the opposite direction. *)
Definition invert (p : RewritePath) : RewritePath := reverse (invertStep <$> p).

(** Modelled from the spec: the [Rule] class is declared in Rule.h;
    section 3 gives a rule its two sides, the flags and, when it encodes a
    property, the symbol it attaches ([isPropertyRule]). *)
Record Rule := mkRule {
  getLHS : Term;
  getRHS : Term;
  isPermanent : bool;
  isConflicting : bool;
  isPropertyRule : option Symbol
}.

Definition markConflictingRule (r : Rule) : Rule :=
  mkRule (getLHS r) (getRHS r) (isPermanent r) true (isPropertyRule r).

Record TypeDifference := mkDifference { diffLHS : Symbol; diffRHS : Symbol }.

(** Modelled from the spec: [addRule], [addPermanentRule] and
    [addExplicitRule] are defined with the rewrite system; section 6 makes
    [addRule] responsible for reducing and orienting what it is given.  This
    file only hands rules over, so the embedding keeps what was handed
    over, oldest first, exactly as submitted. *)
Inductive Submission :=
| AddRule (lhs rhs : MutableTerm) (path : option RewritePath)
| AddPermanentRule (lhs rhs : MutableTerm)
| AddExplicitRule (lhs rhs : MutableTerm).

(** [Rules] holds the rules [getRule] answers for the ids that the property
    bags carry: the rules that are there when the pass starts.  What
    [addRule] makes of a submission (the reduced and oriented rule and its
    new id) is outside this file, so the rules added during the pass are
    in [Submitted] and not in [Rules]. *)
Record RewriteSystem := mkSystem {
  Rules : list Rule;
  Relations : list (Term * Term);
  Protos : list ProtocolDecl;
  Submitted : list Submission
}.

(** ** Property bags and the property map *)

(** Modelled from the spec: [PropertyBag] is declared in PropertyMap.h;
    section 3 lists what a bag holds.  Here it has the members this file
    reads and the two vectors it appends to. *)
Module PropertyBag.
Record t := mk {
  Key : Term;
  ConformsTo : list ProtocolDecl;
  ConformsToRules : list nat;
  ConcreteType : option Symbol;
  ConcreteTypeRule : option nat;
  SuperclassType : option Symbol;
  SuperclassRule : option nat;
  ConcreteConformances : list ProtocolConformance;
  SuperclassConformances : list ProtocolConformance
}.

Definition getKey := Key.
Definition getConformsTo := ConformsTo.
Definition isConcreteType (b : t) : bool := bool_decide (is_Some (ConcreteType b)).
Definition hasSuperclassBound (b : t) : bool := bool_decide (is_Some (SuperclassType b)).

Definition setConcreteConformances (l : list ProtocolConformance) (b : t) : t :=
  mk (Key b) (ConformsTo b) (ConformsToRules b) (ConcreteType b) (ConcreteTypeRule b)
     (SuperclassType b) (SuperclassRule b) l (SuperclassConformances b).
Definition setSuperclassConformances (l : list ProtocolConformance) (b : t) : t :=
  mk (Key b) (ConformsTo b) (ConformsToRules b) (ConcreteType b) (ConcreteTypeRule b)
     (SuperclassType b) (SuperclassRule b) (ConcreteConformances b) l.
End PropertyBag.

(** The members of [PropertyMap] the file touches: the rewrite system it
    holds by reference, the bags, and the map from a pair of rule ids to the
    conformance found for it. *)
Record PropertyMap := mkMap {
  System : RewriteSystem;
  Entries : list PropertyBag.t;
  ConcreteConformances : gmap (nat * nat) ProtocolConformance
}.

(** ** Collaborators defined in other files *)

(** What a [RuleBuilder] holds once it has run: the protocol map it was
    given by reference, and the rules it collected. *)
Record RuleBuilder := mkBuilder {
  ProtocolMap : list ProtocolDecl;
  PermanentRules : list (MutableTerm * MutableTerm);
  RequirementRules : list (MutableTerm * MutableTerm)
}.

Class Collaborators := {
  (** [proto->getParentModule()->lookupConformance(type, proto)] *)
  lookupConformance : CanType → ProtocolDecl → ProtocolConformanceRef;
  (** [Context.getRelativeTermForType(type, substitutions)] *)
  getRelativeTermForType : CanType → list Term → MutableTerm;
  (** [Context.getRelativeSubstitutionSchemaFromType(type, substitutions, result)]:
      the schema and what it leaves in [result] *)
  getRelativeSubstitutionSchemaFromType : CanType → list Term → CanType * list Term;
  (** [PropertyMap::lookUpProperties(key)] *)
  lookUpProperties : list PropertyBag.t → MutableTerm → option PropertyBag.t;
  (** [System.simplifySubstitutions(key, symbol, map, &path)] followed by
      [System.getTypeDifference]: the difference, if any, and the path *)
  simplifySubstitutions :
    Term → Symbol → list PropertyBag.t → RewriteSystem → option TypeDifference * RewritePath;
  (** [desugarRequirement(req, result, errors)]: what it appends to [result] *)
  desugarRequirement : Requirement → list Requirement;
  (** [getRuleForRequirement(req, nullptr, substitutions, Context)] *)
  getRuleForRequirement : Requirement → list Term → MutableTerm * MutableTerm;
  (** a [RuleBuilder] over the system's protocol map, after [addProtocol]
      and [collectRulesFromReferencedProtocols] *)
  buildRulesForProtocol : list ProtocolDecl → ProtocolDecl → RuleBuilder
}.

(** ** The monad: state is the property map, failure is a failed assertion
    or an access the C++ leaves undefined *)

Inductive Failure :=
| BadRequirementKind
| SizeMismatch
| AbstractConformanceFound
| AlreadyInserted
| EmptyPath
| DifferenceMismatch
| NoSuchRule
| NoSuchEntry
| EmptyOptional
| WrongSymbolKind
| TermTooShort.

Inductive Result (A : Type) :=
| Ok (a : A) (m : PropertyMap)
| Failed (f : Failure).
Arguments Ok {A} a m.
Arguments Failed {A} f.

Definition M (A : Type) : Type := PropertyMap → Result A.

Global Instance M_ret : MRet M := λ A a m, Ok a m.
Global Instance M_bind : MBind M := λ A B f c m,
  match c m with
  | Ok a m' => f a m'
  | Failed e => Failed e
  end.

Definition fail {A} (e : Failure) : M A := λ _, Failed e.
Definition assert (b : bool) (e : Failure) : M unit :=
  if b then mret () else fail e.
Definition deref {A} (o : option A) (e : Failure) : M A :=
  match o with Some a => mret a | None => fail e end.
Definition getMap : M PropertyMap := λ m, Ok m m.
Definition putSystem (sys : RewriteSystem) : M unit :=
  λ m, Ok () (mkMap sys (Entries m) (ConcreteConformances m)).
Definition putEntries (es : list PropertyBag.t) : M unit :=
  λ m, Ok () (mkMap (System m) es (ConcreteConformances m)).
Definition putConcreteConformances (c : gmap (nat * nat) ProtocolConformance) : M unit :=
  λ m, Ok () (mkMap (System m) (Entries m) c).

(** A reference to one of the two vectors of the bag at index [i] of
    [Entries]: what the C++ passes as [conformances].  The driver only makes
    references to bags that exist; on any other index [push_back] has
    nothing to change. *)
Inductive ConformancesRef :=
| ConcreteConformancesOf (i : nat)
| SuperclassConformancesOf (i : nat).

Definition readConformances (r : ConformancesRef) (m : PropertyMap) : list ProtocolConformance :=
  match r with
  | ConcreteConformancesOf i =>
      default [] (PropertyBag.ConcreteConformances <$> Entries m !! i)
  | SuperclassConformancesOf i =>
      default [] (PropertyBag.SuperclassConformances <$> Entries m !! i)
  end.

Definition push_back (r : ConformancesRef) (c : ProtocolConformance) : M unit :=
  m ← getMap;
  putEntries
    match r with
    | ConcreteConformancesOf i =>
        alter (λ b, PropertyBag.setConcreteConformances
                      (PropertyBag.ConcreteConformances b ++ [c]) b) i (Entries m)
    | SuperclassConformancesOf i =>
        alter (λ b, PropertyBag.setSuperclassConformances
                      (PropertyBag.SuperclassConformances b ++ [c]) b) i (Entries m)
    end.

(** [ConcreteConformances.insert(std::make_pair(pair, concrete)).second]:
    a [DenseMap] keeps the entry it has and answers [false]. *)
Definition insertConformance (pair : nat * nat) (c : ProtocolConformance) : M bool :=
  m ← getMap;
  match ConcreteConformances m !! pair with
  | Some _ => mret false
  | None => putConcreteConformances (<[pair := c]> (ConcreteConformances m)) ;; mret true
  end.

(** [for (x : xs) body(x)] *)
Fixpoint forEach {A} (body : A → M unit) (xs : list A) : M unit :=
  match xs with
  | [] => mret ()
  | x :: rest => body x ;; forEach body rest
  end.

(** *** Operations of [RewriteSystem] *)

(** Modelled from the spec: [RewriteSystem::getRule] and
    [Rule::markConflicting] are defined with the rewrite system; section 3
    has rules identified by a stable integer id and never deleted, only
    marked conflicting. *)
Definition getRule (id : nat) : M Rule :=
  m ← getMap; deref (Rules (System m) !! id) NoSuchRule.

Definition markConflicting (id : nat) : M unit :=
  m ← getMap;
  r ← deref (Rules (System m) !! id) NoSuchRule;
  let sys := System m in
  putSystem (mkSystem (<[id := markConflictingRule r]> (Rules sys))
                      (Relations sys) (Protos sys) (Submitted sys)).

Definition submit (e : Submission) : M unit :=
  m ← getMap;
  let sys := System m in
  putSystem (mkSystem (Rules sys) (Relations sys) (Protos sys) (Submitted sys ++ [e])).

(** [System.addRule(lhs, rhs, &path)]; the result is discarded by every caller *)
Definition addRule (lhs rhs : MutableTerm) (path : option RewritePath) : M unit :=
  submit (AddRule lhs rhs path).
Definition addPermanentRule (lhs rhs : MutableTerm) : M unit :=
  submit (AddPermanentRule lhs rhs).
Definition addExplicitRule (lhs rhs : MutableTerm) : M unit :=
  submit (AddExplicitRule lhs rhs).

(** Modelled from the spec: [RewriteSystem::recordRelation] is defined with
    the rewrite system; section 3 describes the relation cache as a memo
    from a pair of terms to its id, so a pair already there keeps its id and
    a new one gets the next. *)
Definition recordRelation (lhs rhs : Term) : M nat :=
  m ← getMap;
  let sys := System m in
  match list_find (λ r, r = (lhs, rhs)) (Relations sys) with
  | Some (id, _) => mret id
  | None =>
      putSystem (mkSystem (Rules sys) (Relations sys ++ [(lhs, rhs)])
                          (Protos sys) (Submitted sys)) ;;
      mret (length (Relations sys))
  end.

(** Modelled from the spec: the three functions below are defined with the
    rewrite system; sections 4.3 and 4.4 name the relations, and the comments
    of their callers in this file spell them out:
    [[concrete: C].[P] => [concrete: C : P]],
    [[concrete: C : P].[P:X].[concrete: C.X] => [concrete: C : P].[P:X]] and
    [[concrete: C : P].[P:X].[concrete: C] => [concrete: C : P]]. *)
Definition recordConcreteConformanceRelation
    (concreteSymbol protocolSymbol concreteConformanceSymbol : Symbol) : M nat :=
  recordRelation [concreteSymbol; protocolSymbol] [concreteConformanceSymbol].

Definition recordConcreteTypeWitnessRelation
    (concreteConformanceSymbol associatedTypeSymbol typeWitnessSymbol : Symbol) : M nat :=
  recordRelation [concreteConformanceSymbol; associatedTypeSymbol; typeWitnessSymbol]
                 [concreteConformanceSymbol; associatedTypeSymbol].

Definition recordSameTypeWitnessRelation
    (concreteConformanceSymbol associatedTypeSymbol : Symbol) : M nat :=
  c ← deref (getConcreteType concreteConformanceSymbol) WrongSymbolKind;
  l ← deref (getSubstitutions concreteConformanceSymbol) WrongSymbolKind;
  recordRelation [concreteConformanceSymbol; associatedTypeSymbol; SymConcreteType c l]
                 [concreteConformanceSymbol].

(** Modelled from the spec: [RewriteSystem::isKnownProtocol] is defined with
    the rewrite system; section 4.5 speaks of an interface that has been
    registered with the engine. *)
Definition isKnownProtocol (proto : ProtocolDecl) : M bool :=
  m ← getMap; mret (bool_decide (proto ∈ Protos (System m))).

Section ConcreteTypeWitness.
Context {env : Collaborators}.

(** ** [PropertyMap::computeConstraintTermForTypeWitness] *)

(** The loop [while (begin != end) { ...; --end; }]: [len] is [end - begin],
    and the bag returned is the one the loop returns from. *)
Fixpoint findPrefixWithConcreteType
    (entries : list PropertyBag.t) (key : Term) (typeWitness : CanType) (len : nat)
    : option PropertyBag.t :=
  match len with
  | 0 => None
  | S shorter =>
      let prefix := take len key in
      match lookUpProperties entries prefix with
      | Some props =>
          if PropertyBag.isConcreteType props
             && bool_decide (PropertyBag.ConcreteType props ≫= getConcreteType = Some typeWitness)
          then Some props
          else findPrefixWithConcreteType entries key typeWitness shorter
      | None => findPrefixWithConcreteType entries key typeWitness shorter
      end
  end.

(** [path] is the reference parameter: the function returns the term
    together with the path as it leaves it. *)
Definition computeConstraintTermForTypeWitness
    (key : Term) (requirementKind : RequirementKind)
    (concreteType typeWitness : CanType) (subjectType : MutableTerm)
    (substitutions : list Term) (path : RewritePath) : M (MutableTerm * RewritePath) :=
  if isTypeParameter typeWitness then
    let result := getRelativeTermForType typeWitness substitutions in
    relationID ← recordRelation result subjectType;
    mret (result, path ++ [forRelation 0 relationID false])
  else
    let '(typeWitnessSchema, result) :=
      getRelativeSubstitutionSchemaFromType typeWitness substitutions in
    let typeWitnessSymbol := SymConcreteType typeWitnessSchema result in
    m ← getMap;
    match (if hasTypeParameter typeWitness then None
           else findPrefixWithConcreteType (Entries m) key typeWitness (length key)) with
    | Some props =>
        let result := PropertyBag.getKey props ++ [typeWitnessSymbol] in
        relationID ← recordRelation result subjectType;
        mret (result, path ++ [forRelation 0 relationID false])
    | None =>
        assert (bool_decide (2 ≤ length subjectType)) TermTooShort ;;
        concreteConformanceSymbol ← deref (subjectType !! (length subjectType - 2)) TermTooShort;
        associatedTypeSymbol ← deref (subjectType !! (length subjectType - 1)) TermTooShort;
        concreteRelationID ← recordConcreteTypeWitnessRelation
          concreteConformanceSymbol associatedTypeSymbol typeWitnessSymbol;
        m ← getMap;
        let '(difference, substPath) :=
          simplifySubstitutions key typeWitnessSymbol (Entries m) (System m) in
        '(typeWitnessSymbol, substPath) ←
          match difference with
          | Some d =>
              assert (bool_decide (diffLHS d = typeWitnessSymbol)) DifferenceMismatch ;;
              mret (diffRHS d, invert substPath)
          | None => mret (typeWitnessSymbol, substPath)
          end;
        same ←
          (if bool_decide (requirementKind = SameType) then
             c ← deref (getConcreteType typeWitnessSymbol) WrongSymbolKind;
             if bool_decide (c = concreteType) then
               l ← deref (getSubstitutions typeWitnessSymbol) WrongSymbolKind;
               mret (bool_decide (l = substitutions))
             else mret false
           else mret false);
        if (same : bool) then
          let result := key ++ [concreteConformanceSymbol] in
          sameRelationID ← recordSameTypeWitnessRelation
            concreteConformanceSymbol associatedTypeSymbol;
          mret (result,
                (path ++ [forRelation (length key) sameRelationID true]) ++ substPath
                  ++ [forRelation (length key) concreteRelationID false])
        else
          let constraintType := subjectType ++ [typeWitnessSymbol] in
          mret (constraintType,
                path ++ substPath ++ [forRelation (length key) concreteRelationID false])
    end.

(** ** [PropertyMap::concretizeTypeWitnessInConformance] *)

Definition concretizeTypeWitnessInConformance
    (key : Term) (requirementKind : RequirementKind)
    (concreteConformanceSymbol : Symbol)
    (concrete : ProtocolConformance) (assocType : AssociatedTypeDecl) : M unit :=
  concreteType ← deref (getConcreteType concreteConformanceSymbol) WrongSymbolKind;
  substitutions ← deref (getSubstitutions concreteConformanceSymbol) WrongSymbolKind;
  proto ← deref (getProtocol concreteConformanceSymbol) WrongSymbolKind;
  let t := match getTypeWitness concrete assocType with
           | Some t => t
           | None => ErrorType concreteType
           end in
  let typeWitness := t in
  let subjectType :=
    (key ++ [concreteConformanceSymbol]) ++ [SymAssociatedType proto (assocName assocType)] in
  '(constraintType, path) ← computeConstraintTermForTypeWitness
     key requirementKind concreteType typeWitness subjectType substitutions [];
  assert (negb (bool_decide (path = []))) EmptyPath ;;
  addRule constraintType subjectType (Some path).

(** ** [PropertyMap::recordConcreteConformanceRule] *)

Definition recordConcreteConformanceRule
    (concreteRuleID conformanceRuleID : nat) (requirementKind : RequirementKind)
    (concreteConformanceSymbol : Symbol) : M unit :=
  concreteRule ← getRule concreteRuleID;
  conformanceRule ← getRule conformanceRuleID;
  let path : RewritePath := [] in
  let rhs := if bool_decide (length (getRHS conformanceRule) < length (getRHS concreteRule))
             then getRHS concreteRule else getRHS conformanceRule in
  let path := path ++ [forRewriteRule (length rhs - length (getRHS conformanceRule)) 0
                                      conformanceRuleID true] in
  let path := path ++ [forRewriteRule (length rhs - length (getRHS concreteRule)) 1
                                      concreteRuleID true] in
  concreteSymbol ← deref (isPropertyRule concreteRule) EmptyOptional;
  let prefixLength := length rhs - length (getRHS concreteRule) in
  prefixed ←
    (if bool_decide (0 < prefixLength) then
       substitutions ← deref (getSubstitutions concreteConformanceSymbol) WrongSymbolKind;
       mret (negb (bool_decide (substitutions = [])))
     else mret false);
  let path := if (prefixed : bool) then path ++ [forPrefixSubstitutions prefixLength 1 false]
              else path in
  let concreteSymbol :=
    if prefixed
    then prependPrefixToConcreteSubstitutions (take prefixLength rhs) concreteSymbol
    else concreteSymbol in
  protocolSymbol ← deref (isPropertyRule conformanceRule) EmptyOptional;
  relationID ← recordConcreteConformanceRelation
    concreteSymbol protocolSymbol concreteConformanceSymbol;
  let path := path ++ [forRelation (length rhs) relationID false] in
  let lhs := rhs ++ [concreteConformanceSymbol] in
  let path := invert path in
  addRule lhs rhs (Some path).

(** ** [PropertyMap::inferConditionalRequirements] *)

(** The body of the second loop, for one desugared requirement. *)
Definition addRuleForRequirement (substitutions : list Term) (req : Requirement) : M unit :=
  match req with
  | ReqConformance _ proto =>
      known ← isKnownProtocol proto;
      if negb known then
        m ← getMap;
        let sys := System m in
        let builder := buildRulesForProtocol (Protos sys) proto in
        putSystem (mkSystem (Rules sys) (Relations sys) (ProtocolMap builder) (Submitted sys)) ;;
        forEach (λ rule, addPermanentRule rule.1 rule.2) (PermanentRules builder) ;;
        forEach (λ rule, addExplicitRule rule.1 rule.2) (RequirementRules builder)
      else mret ()
  | _ => mret ()
  end ;;
  let pair := getRuleForRequirement req substitutions in
  addRule pair.1 pair.2 None.

Definition inferConditionalRequirements
    (concrete : ProtocolConformance) (substitutions : list Term) : M unit :=
  let conditionalRequirements := getConditionalRequirements concrete in
  if bool_decide (conditionalRequirements = []) then mret ()
  else
    let desugaredRequirements := concat (desugarRequirement <$> conditionalRequirements) in
    forEach (addRuleForRequirement substitutions) desugaredRequirements.

(** ** [PropertyMap::concretizeNestedTypesFromConcreteParent] *)

(** The body of the loop over [indices(conformsTo)], for [conformsTo[i]] and
    [conformsToRules[i]]. *)
Definition concretizeForProtocol
    (key : Term) (requirementKind : RequirementKind) (concreteRuleID : nat)
    (concreteType : CanType) (substitutions : list Term)
    (conformances : ConformancesRef)
    (proto : ProtocolDecl) (conformanceRuleID : nat) : M unit :=
  let pair := (concreteRuleID, conformanceRuleID) in
  m ← getMap;
  match ConcreteConformances m !! pair with
  | Some found => push_back conformances found
  | None =>
      match lookupConformance concreteType proto with
      | InvalidConformance =>
          if bool_decide (requirementKind = SameType) then
            concreteRule ← getRule concreteRuleID;
            (if bool_decide (length (getRHS concreteRule) = length key)
             then markConflicting concreteRuleID else mret ()) ;;
            conformanceRule ← getRule conformanceRuleID;
            (if bool_decide (length (getRHS conformanceRule) = length key)
             then markConflicting conformanceRuleID else mret ())
          else mret ()
      | AbstractConformance _ => fail AbstractConformanceFound
      | ConcreteConformance concrete =>
          inserted ← insertConformance pair concrete;
          assert inserted AlreadyInserted ;;
          push_back conformances concrete ;;
          let concreteConformanceSymbol :=
            SymConcreteConformance concreteType substitutions proto in
          recordConcreteConformanceRule concreteRuleID conformanceRuleID
            requirementKind concreteConformanceSymbol ;;
          forEach (concretizeTypeWitnessInConformance key requirementKind
                     concreteConformanceSymbol concrete)
                  (AssociatedTypeMembers proto) ;;
          if bool_decide (getRootProtocol key = None)
          then inferConditionalRequirements concrete substitutions
          else mret ()
      end
  end.

Definition concretizeNestedTypesFromConcreteParent
    (key : Term) (requirementKind : RequirementKind) (concreteRuleID : nat)
    (concreteType : CanType) (substitutions : list Term)
    (conformsToRules : list nat) (conformsTo : list ProtocolDecl)
    (conformances : ConformancesRef) : M unit :=
  assert (bool_decide (requirementKind = SameType)
          || bool_decide (requirementKind = Superclass)) BadRequirementKind ;;
  assert (bool_decide (length conformsTo = length conformsToRules)) SizeMismatch ;;
  forEach (λ '(proto, conformanceRuleID),
             concretizeForProtocol key requirementKind concreteRuleID concreteType
               substitutions conformances proto conformanceRuleID)
          (zip conformsTo conformsToRules).

(** ** [PropertyMap::concretizeNestedTypesFromConcreteParents] *)

(** The body of the loop over [Entries], for the bag at index [i]. *)
Definition concretizeEntry (i : nat) : M unit :=
  m ← getMap;
  props ← deref (Entries m !! i) NoSuchEntry;
  if bool_decide (PropertyBag.getConformsTo props = []) then mret ()
  else
    (if PropertyBag.isConcreteType props then
       ruleID ← deref (PropertyBag.ConcreteTypeRule props) EmptyOptional;
       symbol ← deref (PropertyBag.ConcreteType props) EmptyOptional;
       concreteType ← deref (getConcreteType symbol) WrongSymbolKind;
       substitutions ← deref (getSubstitutions symbol) WrongSymbolKind;
       concretizeNestedTypesFromConcreteParent
         (PropertyBag.getKey props) SameType ruleID concreteType substitutions
         (PropertyBag.ConformsToRules props) (PropertyBag.ConformsTo props)
         (ConcreteConformancesOf i)
     else mret ()) ;;
    (if PropertyBag.hasSuperclassBound props then
       ruleID ← deref (PropertyBag.SuperclassRule props) EmptyOptional;
       symbol ← deref (PropertyBag.SuperclassType props) EmptyOptional;
       concreteType ← deref (getConcreteType symbol) WrongSymbolKind;
       substitutions ← deref (getSubstitutions symbol) WrongSymbolKind;
       concretizeNestedTypesFromConcreteParent
         (PropertyBag.getKey props) Superclass ruleID concreteType substitutions
         (PropertyBag.ConformsToRules props) (PropertyBag.ConformsTo props)
         (SuperclassConformancesOf i)
     else mret ()).

Definition concretizeNestedTypesFromConcreteParents : M unit :=
  m ← getMap;
  forEach concretizeEntry (seq 0 (length (Entries m))).

(** Modelled from the spec: the completion loop that calls the pass is
    outside this file; sections 3 and 5 say that every round rebuilds the
    property bags from the current rules and runs the pass again, while the
    rules submitted, the relations and the cache of conformances persist.
    A round is given the rules and the bags it starts from. *)
Definition rebuild (rules : list Rule) (entries : list PropertyBag.t) : M unit :=
  λ m, Ok () (mkMap (mkSystem rules (Relations (System m)) (Protos (System m))
                              (Submitted (System m)))
                    entries (ConcreteConformances m)).

Definition completionRounds (rounds : list (list Rule * list PropertyBag.t)) : M unit :=
  forEach (λ '(rules, entries),
             rebuild rules entries ;; concretizeNestedTypesFromConcreteParents)
          rounds.

End ConcreteTypeWitness.

(** ** A concrete setting: the example in the comment above
    [concretizeNestedTypesFromConcreteParent]

    [protocol Q { associatedtype V }],
    [protocol P { associatedtype A; associatedtype C }],
    [struct Foo<A, B : Q> : P { typealias C = B.V }] and the bag
    [T => { conforms_to: [P], concrete: Foo<Int, τ_0_0> with <U> }]. *)
Module Example.

Definition Q : ProtocolDecl := mkProto "Q" [mkAssoc "V"].
Definition P : ProtocolDecl := mkProto "P" [mkAssoc "A"; mkAssoc "C"].
Definition Int : CanType := Nominal "Int" [].
Definition Bar : CanType := Nominal "Bar" [].
Definition Loop : CanType := Nominal "Loop" [GenericTypeParamType 0 0].
Definition Foo : CanType := Nominal "Foo" [Int; GenericTypeParamType 0 0].
Definition T : Term := [SymGenericParam 0 0].
Definition U : Term := [SymGenericParam 0 1].

(** [Foo<Int, τ_0_0> : P], with [A := Int] and [C := τ_0_0.[Q:V]] *)
Definition FooP : ProtocolConformance :=
  mkConformance Foo P
    [(mkAssoc "A", Int); (mkAssoc "C", DependentMemberType (GenericTypeParamType 0 0) Q "V")]
    [].
(** the same conformance, conditional on [τ_0_0 : Q] *)
Definition FooPIfQ : ProtocolConformance :=
  mkConformance Foo P (TypeWitnesses FooP) [ReqConformance (GenericTypeParamType 0 0) Q].
(** [Bar : P] with [A := Int] and no witness for [C] *)
Definition BarP : ProtocolConformance := mkConformance Bar P [(mkAssoc "A", Int)] [].
(** [Loop<τ_0_0> : P] with [A := Loop<τ_0_0>] *)
Definition LoopP : ProtocolConformance :=
  mkConformance Loop P [(mkAssoc "A", Loop); (mkAssoc "C", Int)] [].

(** [τ_0_n.X.Y] relative to the substitutions: [S[n].X.Y] *)
Fixpoint relativeTerm (t : CanType) (substitutions : list Term) : MutableTerm :=
  match t with
  | GenericTypeParamType _ n => default [] (substitutions !! n)
  | DependentMemberType b p x => relativeTerm b substitutions ++ [SymAssociatedType p x]
  | _ => []
  end.

(** The arguments of a generic type with each argument that is a type
    parameter replaced by the next generic parameter, and the terms of the
    arguments replaced. *)
Fixpoint schemaArgs (args : list CanType) (substitutions : list Term) (next : nat)
    : list CanType * list Term :=
  match args with
  | [] => ([], [])
  | a :: rest =>
      if isTypeParameter a then
        (GenericTypeParamType 0 next :: (schemaArgs rest substitutions (S next)).1,
         relativeTerm a substitutions :: (schemaArgs rest substitutions (S next)).2)
      else
        (a :: (schemaArgs rest substitutions next).1,
         (schemaArgs rest substitutions next).2)
  end.

(** Collaborators over a table of conformances.  Substitutions simplify
    to themselves, a requirement desugars to itself, and a bag is looked
    up by its key. *)
Definition collaborators (table : list ProtocolConformance) : Collaborators := {|
  lookupConformance t p :=
    match list_find (λ c, getType c = t ∧ getProtocolDecl c = p) table with
    | Some (_, c) => ConcreteConformance c
    | None => InvalidConformance
    end;
  getRelativeTermForType := relativeTerm;
  getRelativeSubstitutionSchemaFromType t substitutions :=
    match t with
    | Nominal n args =>
        (Nominal n (schemaArgs args substitutions 0).1,
         (schemaArgs args substitutions 0).2)
    | _ => (t, [])
    end;
  lookUpProperties entries key :=
    snd <$> list_find (λ b, PropertyBag.Key b = key) entries;
  simplifySubstitutions _ _ _ _ := (None, []);
  desugarRequirement req := [req];
  getRuleForRequirement req substitutions :=
    match req with
    | ReqConformance t p =>
        (relativeTerm t substitutions ++ [SymProtocol p], relativeTerm t substitutions)
    | ReqSuperclass t c =>
        (relativeTerm t substitutions ++ [SymSuperclass c []], relativeTerm t substitutions)
    | ReqSameType a b => (relativeTerm a substitutions, relativeTerm b substitutions)
    | ReqLayout t _ => (relativeTerm t substitutions, relativeTerm t substitutions)
    end;
  buildRulesForProtocol protos p :=
    mkBuilder (protos ++ [p])
              [([SymProtocol p; SymProtocol p], [SymProtocol p])]
              ((λ a, ([SymProtocol p; SymName (assocName a)],
                      [SymAssociatedType p (assocName a)])) <$> AssociatedTypeMembers p)
|}.

Definition FooSymbol : Symbol := SymConcreteType Foo [U].
Definition FooConformance : Symbol := SymConcreteConformance Foo [U] P.

(** rule 0: [T.[P] => T]; rule 1: [T.[concrete: Foo<Int, τ_0_0> with <U>] => T] *)
Definition rules : list Rule :=
  [ mkRule (T ++ [SymProtocol P]) T false false (Some (SymProtocol P));
    mkRule (T ++ [FooSymbol]) T false false (Some FooSymbol) ].

Definition bagT : PropertyBag.t :=
  PropertyBag.mk T [P] [0] (Some FooSymbol) (Some 1) None None [] [].

Definition start : PropertyMap :=
  mkMap (mkSystem rules [] [P] []) [bagT] ∅.

(** A key of two symbols whose concrete-type rule comes from the bag of
    its suffix: rule 0 is [[Q:V].[concrete: Bar] => [Q:V]], rule 1 is
    [T.[Q:V].[P] => T.[Q:V]]. *)
Definition TV : Term := T ++ [SymAssociatedType Q "V"].
Definition BarSymbol : Symbol := SymConcreteType Bar [].
Definition inheritedRules : list Rule :=
  [ mkRule [SymAssociatedType Q "V"; BarSymbol] [SymAssociatedType Q "V"]
           false false (Some BarSymbol);
    mkRule (TV ++ [SymProtocol P]) TV false false (Some (SymProtocol P)) ].
Definition bagTV : PropertyBag.t :=
  PropertyBag.mk TV [P] [1] (Some BarSymbol) (Some 0) None None [] [].
Definition inherited : PropertyMap :=
  mkMap (mkSystem inheritedRules [] [P; Q] []) [bagTV] ∅.

(** Two stores for rule merging.  In the first the conformance rule
    [[Q:V].[P] => [Q:V]] (rule 0) has the shorter right-hand side and the
    concrete-type rule [T.[Q:V].[concrete: Foo<Int, τ_0_0> with <U>] => T.[Q:V]]
    (rule 1) the longer one; in the second it is the other way round. *)
Definition shortConformance : PropertyMap :=
  mkMap (mkSystem
           [ mkRule [SymAssociatedType Q "V"; SymProtocol P] [SymAssociatedType Q "V"]
                    false false (Some (SymProtocol P));
             mkRule (TV ++ [FooSymbol]) TV false false (Some FooSymbol) ]
           [] [P; Q] [])
        [] ∅.
Definition shortConcrete : PropertyMap :=
  mkMap (mkSystem
           [ mkRule (TV ++ [SymProtocol P]) TV false false (Some (SymProtocol P));
             mkRule [SymAssociatedType Q "V"; FooSymbol] [SymAssociatedType Q "V"]
                    false false (Some FooSymbol) ]
           [] [P; Q] [])
        [] ∅.

(** A key whose prefix already has the witness as its concrete type:
    the bag of [T] is fixed to [Int] (rule 0), the bag of [T.[Q:V]]
    conforms to [P] (rule 1) and is fixed to [Bar] (rule 2). *)
Definition BarConformance : Symbol := SymConcreteConformance Bar [] P.
Definition tieOff : PropertyMap :=
  mkMap (mkSystem
           [ mkRule (T ++ [SymConcreteType Int []]) T false false
                    (Some (SymConcreteType Int []));
             mkRule (TV ++ [SymProtocol P]) TV false false (Some (SymProtocol P));
             mkRule (TV ++ [BarSymbol]) TV false false (Some BarSymbol) ]
           [] [P; Q] [])
        [ PropertyBag.mk T [] [] (Some (SymConcreteType Int [])) (Some 0) None None [] [];
          PropertyBag.mk TV [P] [1] (Some BarSymbol) (Some 2) None None [] [] ]
        ∅.

(** [T => { conforms_to: [P], concrete: Loop<τ_0_0> with <U> }], where the
    witness of [A] is [Loop<τ_0_0>] again. *)
Definition LoopSymbol : Symbol := SymConcreteType Loop [U].
Definition LoopConformance : Symbol := SymConcreteConformance Loop [U] P.
Definition loop : PropertyMap :=
  mkMap (mkSystem
           [ mkRule (T ++ [SymProtocol P]) T false false (Some (SymProtocol P));
             mkRule (T ++ [LoopSymbol]) T false false (Some LoopSymbol) ]
           [] [P] [])
        [ PropertyBag.mk T [P] [0] (Some LoopSymbol) (Some 1) None None [] [] ]
        ∅.

Definition run {A} (table : list ProtocolConformance)
    (f : Collaborators → M A) (m : PropertyMap) : Result A :=
  f (collaborators table) m.

End Example.

(** * Properties *)

(** ** Running the monad *)

Lemma bind_Ok {A B} (c : M A) (f : A → M B) (m : PropertyMap) a m1 :
  c m = Ok a m1 → (c ≫= f) m = f a m1.
Proof. unfold mbind, M_bind. by intros ->. Qed.

Lemma bind_Failed {A B} (c : M A) (f : A → M B) (m : PropertyMap) e :
  c m = Failed e → (c ≫= f) m = Failed e.
Proof. unfold mbind, M_bind. by intros ->. Qed.

Lemma bind_inv {A B} (c : M A) (f : A → M B) (m : PropertyMap) b m2 :
  (c ≫= f) m = Ok b m2 → ∃ a m1, c m = Ok a m1 ∧ f a m1 = Ok b m2.
Proof. unfold mbind, M_bind. destruct (c m); [eauto | done]. Qed.

Lemma ret_bind {A B} (a : A) (f : A → M B) (m : PropertyMap) :
  (mret a ≫= f) m = f a m.
Proof. done. Qed.

Lemma bind_assoc {A B C} (c : M A) (f : A → M B) (g : B → M C) (m : PropertyMap) :
  ((c ≫= f) ≫= g) m = (c ≫= λ a, f a ≫= g) m.
Proof. unfold mbind, M_bind. by destruct (c m). Qed.

Lemma forEach_cons {A} (body : A → M unit) x xs m :
  forEach body (x :: xs) m = (body x ≫= λ _, forEach body xs) m.
Proof. done. Qed.

Lemma forEach_app {A} (body : A → M unit) xs ys m :
  forEach body (xs ++ ys) m = (forEach body xs ≫= λ _, forEach body ys) m.
Proof.
  revert m. induction xs as [|x xs IH]; intros m; simpl.
  - done.
  - unfold mbind, M_bind. destruct (body x m) as [[] m1|]; [apply IH | done].
Qed.

Ltac run := unfold mbind, mret, M_bind, M_ret, getMap, putSystem, putEntries,
  putConcreteConformances, deref, assert, fail in *; simpl in *.

Lemma getRule_Ok (m : PropertyMap) id r :
  Rules (System m) !! id = Some r → getRule id m = Ok r m.
Proof. intros E. unfold getRule. run. by rewrite E. Qed.

Lemma markConflicting_Ok (m : PropertyMap) id r :
  Rules (System m) !! id = Some r →
  markConflicting id m =
    Ok () (mkMap (mkSystem (<[id := markConflictingRule r]> (Rules (System m)))
                           (Relations (System m)) (Protos (System m))
                           (Submitted (System m)))
                 (Entries m) (ConcreteConformances m)).
Proof. intros E. unfold markConflicting. run. by rewrite E. Qed.

Section Conflicts.
Context {env : Collaborators}.

(** What a failed lookup under a same-type requirement does to the state:
    only the [conflicting] flags of the two rules can change. *)
Definition markIfKeyLength (key : Term) (r : Rule) : Rule :=
  if bool_decide (length (getRHS r) = length key) then markConflictingRule r else r.

Lemma getRHS_markIfKeyLength key r : getRHS (markIfKeyLength key r) = getRHS r.
Proof. unfold markIfKeyLength. by case_bool_decide. Qed.

Lemma markIfKeyLength_idemp key r :
  markIfKeyLength key (markIfKeyLength key r) = markIfKeyLength key r.
Proof. unfold markIfKeyLength. by repeat (case_bool_decide; simpl in * ). Qed.

Lemma alter_markIfKeyLength key id (rules : list Rule) r :
  rules !! id = Some r →
  alter (markIfKeyLength key) id rules =
    if bool_decide (length (getRHS r) = length key)
    then <[id := markConflictingRule r]> rules else rules.
Proof.
  intros E. unfold markIfKeyLength. apply list_eq; intros i.
  destruct (decide (i = id)) as [->|].
  - rewrite list_lookup_alter_eq, E. simpl. case_bool_decide; [|done].
    symmetry. apply list_lookup_insert_eq. by eapply lookup_lt_Some.
  - rewrite list_lookup_alter_ne by done. case_bool_decide; [|done].
    by rewrite list_lookup_insert_ne.
Qed.

Lemma markIfKeyLength_Ok key id (m : PropertyMap) r :
  Rules (System m) !! id = Some r →
  (if bool_decide (length (getRHS r) = length key)
   then markConflicting id else mret ()) m =
    Ok () (mkMap (mkSystem (alter (markIfKeyLength key) id (Rules (System m)))
                           (Relations (System m)) (Protos (System m))
                           (Submitted (System m)))
                 (Entries m) (ConcreteConformances m)).
Proof.
  intros E. rewrite (alter_markIfKeyLength _ _ _ _ E).
  case_bool_decide.
  - by apply markConflicting_Ok.
  - by destruct m as [[] ? ?].
Qed.

Lemma missing_conformance_SameType key c p concreteType substitutions conformances proto
    (m : PropertyMap) rc rp :
  ConcreteConformances m !! (c, p) = None →
  lookupConformance concreteType proto = InvalidConformance →
  Rules (System m) !! c = Some rc →
  Rules (System m) !! p = Some rp →
  concretizeForProtocol key SameType c concreteType substitutions conformances proto p m =
    Ok () (mkMap (mkSystem (alter (markIfKeyLength key) p
                              (alter (markIfKeyLength key) c (Rules (System m))))
                           (Relations (System m)) (Protos (System m))
                           (Submitted (System m)))
                 (Entries m) (ConcreteConformances m)).
Proof.
  intros Hcache Hlookup Hc Hp.
  unfold concretizeForProtocol.
  rewrite (bind_Ok getMap _ m m m) by done.
  rewrite Hcache, Hlookup. rewrite bool_decide_true by done.
  rewrite (bind_Ok _ _ m rc m) by by apply getRule_Ok.
  erewrite bind_Ok by by apply markIfKeyLength_Ok.
  set (m1 := mkMap _ _ _).
  assert (Hp1 : Rules (System m1) !! p = Some (if decide (p = c) then markIfKeyLength key rp else rp)).
  { subst m1. simpl. destruct (decide (p = c)) as [->|].
    - rewrite list_lookup_alter_eq, Hp. done.
    - by rewrite list_lookup_alter_ne. }
  erewrite bind_Ok by by apply getRule_Ok.
  by rewrite (markIfKeyLength_Ok key p m1 _ Hp1).
Qed.

Lemma lookup_alter_twice (f : Rule → Rule) (rules : list Rule) c p i r :
  (∀ x, f (f x) = f x) →
  rules !! i = Some r →
  alter f p (alter f c rules) !! i = Some (if bool_decide (i = c ∨ i = p) then f r else r).
Proof.
  intros Hf E.
  destruct (decide (i = p)) as [Hp|Hp], (decide (i = c)) as [Hc|Hc]; subst.
  - rewrite bool_decide_true by auto.
    by rewrite !list_lookup_alter_eq, E; simpl; rewrite Hf.
  - rewrite bool_decide_true by auto.
    by rewrite list_lookup_alter_eq, list_lookup_alter_ne, E.
  - rewrite bool_decide_true by auto.
    by rewrite list_lookup_alter_ne, list_lookup_alter_eq, E.
  - rewrite bool_decide_false by (intros [|]; done).
    by rewrite !list_lookup_alter_ne.
Qed.

(** C10.  When the lookup under a same-type requirement finds no
    conformance, the concrete-type rule is marked conflicting exactly when
    its right-hand side is as long as the key, and so is the conformance
    rule; a rule whose right-hand side has another length, as one inherited
    from the bag of a suffix has, is left as it was. *)
Theorem conflict_marked_only_at_key_length
    key c p concreteType substitutions conformances proto (m : PropertyMap) rc rp :
  ConcreteConformances m !! (c, p) = None →
  lookupConformance concreteType proto = InvalidConformance →
  Rules (System m) !! c = Some rc →
  Rules (System m) !! p = Some rp →
  ∃ m', concretizeForProtocol key SameType c concreteType substitutions
          conformances proto p m = Ok () m'
    ∧ (length (getRHS rc) = length key →
         Rules (System m') !! c = Some (markConflictingRule rc))
    ∧ (length (getRHS rc) ≠ length key → Rules (System m') !! c = Some rc)
    ∧ (length (getRHS rp) = length key →
         Rules (System m') !! p = Some (markConflictingRule rp))
    ∧ (length (getRHS rp) ≠ length key → Rules (System m') !! p = Some rp).
Proof.
  intros Hcache Hlookup Hc Hp. eexists. split.
  { by eapply missing_conformance_SameType. }
  simpl.
  rewrite (lookup_alter_twice _ _ c p c rc (markIfKeyLength_idemp key) Hc).
  rewrite (lookup_alter_twice _ _ c p p rp (markIfKeyLength_idemp key) Hp).
  rewrite !bool_decide_true by auto. unfold markIfKeyLength.
  repeat split; intros E; by (rewrite bool_decide_true by done)
                          || by (rewrite bool_decide_false by done).
Qed.

Lemma missing_conformance_other_kind
    key kind c p concreteType substitutions conformances proto (m : PropertyMap) :
  kind ≠ SameType →
  ConcreteConformances m !! (c, p) = None →
  lookupConformance concreteType proto = InvalidConformance →
  concretizeForProtocol key kind c concreteType substitutions conformances proto p m = Ok () m.
Proof.
  intros Hkind Hcache Hlookup. unfold concretizeForProtocol.
  rewrite (bind_Ok getMap _ m m m) by done.
  by rewrite Hcache, Hlookup, bool_decide_false.
Qed.

(** C1, as the code has it.  When the lookup for P is made (the pair of rule
    ids is not in the cache) and finds no conformance: under a superclass
    requirement nothing changes at all; under a same-type requirement the
    concrete-type rule and the conformance rule are each marked conflicting
    if their right-hand side has the length of the key and are left as they
    were otherwise.  In both cases nothing is submitted to the rewrite
    system, no relation is recorded, nothing is cached, and the loop goes on
    with the next protocol. *)
Theorem missing_conformance_policy
    key kind c p concreteType substitutions conformances proto rest
    (m : PropertyMap) rc rp :
  ConcreteConformances m !! (c, p) = None →
  lookupConformance concreteType proto = InvalidConformance →
  Rules (System m) !! c = Some rc →
  Rules (System m) !! p = Some rp →
  let body := λ '(proto, id), concretizeForProtocol key kind c concreteType
                                substitutions conformances proto id in
  ∃ m', body (proto, p) m = Ok () m'
    ∧ forEach body ((proto, p) :: rest) m = forEach body rest m'
    ∧ Submitted (System m') = Submitted (System m)
    ∧ Relations (System m') = Relations (System m)
    ∧ ConcreteConformances m' = ConcreteConformances m
    ∧ Entries m' = Entries m
    ∧ (kind ≠ SameType → m' = m)
    ∧ (kind = SameType → ∀ i r, Rules (System m) !! i = Some r →
         Rules (System m') !! i
         = Some (if bool_decide (i = c ∨ i = p) then markIfKeyLength key r else r)).
Proof.
  intros Hcache Hlookup Hc Hp body.
  destruct (decide (kind = SameType)) as [->|Hkind].
  - eexists. split; [by eapply missing_conformance_SameType|].
    split.
    { rewrite forEach_cons. erewrite bind_Ok; [done|].
      by eapply missing_conformance_SameType. }
    simpl. repeat split; try done.
    intros _ i r E. by apply lookup_alter_twice; [apply markIfKeyLength_idemp|].
  - exists m. split; [by apply missing_conformance_other_kind|].
    split.
    { rewrite forEach_cons. erewrite bind_Ok; [done|].
      by apply missing_conformance_other_kind. }
    repeat split; done.
Qed.

End Conflicts.

Lemma missing_conformance_policy_witness :
  ∃ m', concretizeForProtocol (env := Example.collaborators [])
          Example.TV SameType 0 Example.Bar [] (ConcreteConformancesOf 0)
          Example.P 1 Example.inherited = Ok () m'
    ∧ Submitted (System m') = [].
Proof.
  destruct (missing_conformance_policy (env := Example.collaborators [])
              Example.TV SameType 0 1 Example.Bar [] (ConcreteConformancesOf 0) Example.P []
              Example.inherited _ _ eq_refl eq_refl eq_refl eq_refl)
    as (m' & E & _ & S & _).
  exists m'. split; [exact E | exact S].
Defined.

(** C1, as the spec words it, fails: the bag of [T.[Q:V]] has its concrete
    type [Bar] from the rule of its suffix [[Q:V]]; [Bar] does not conform
    to [P], the requirement is a same-type one, and the concrete-type rule
    (rule 0) is not marked conflicting. *)
Lemma missing_conformance_leaves_inherited_rule_unmarked :
  lookupConformance (Collaborators := Example.collaborators []) Example.Bar Example.P
    = InvalidConformance
  ∧ ∃ m', concretizeNestedTypesFromConcreteParents (env := Example.collaborators [])
            Example.inherited = Ok () m'
      ∧ isConflicting <$> Rules (System m') !! 0 = Some false
      ∧ isConflicting <$> Rules (System m') !! 1 = Some true.
Proof. split; [reflexivity|]. eexists. vm_compute. done. Qed.

Lemma conflict_marked_only_at_key_length_witness :
  ∃ m', concretizeForProtocol (env := Example.collaborators [])
          Example.TV SameType 0 Example.Bar [] (ConcreteConformancesOf 0)
          Example.P 1 Example.inherited = Ok () m'
    ∧ isConflicting <$> Rules (System m') !! 0 = Some false
    ∧ isConflicting <$> Rules (System m') !! 1 = Some true.
Proof.
  destruct (conflict_marked_only_at_key_length (env := Example.collaborators [])
              Example.TV 0 1 Example.Bar [] (ConcreteConformancesOf 0) Example.P
              Example.inherited _ _ eq_refl eq_refl eq_refl eq_refl)
    as (m' & E & _ & H0 & H1 & _).
  exists m'. split; [exact E|]. split.
  - rewrite H0; [reflexivity | vm_compute; lia].
  - rewrite H1; reflexivity.
Defined.

(** ** The rewrite system after a relation is recorded or a rule submitted *)

Definition withRelations (rels : list (Term * Term)) (m : PropertyMap) : PropertyMap :=
  mkMap (mkSystem (Rules (System m)) rels (Protos (System m)) (Submitted (System m)))
        (Entries m) (ConcreteConformances m).

Definition withSubmitted (sub : list Submission) (m : PropertyMap) : PropertyMap :=
  mkMap (mkSystem (Rules (System m)) (Relations (System m)) (Protos (System m)) sub)
        (Entries m) (ConcreteConformances m).

Definition relationID (lhs rhs : Term) (rels : list (Term * Term)) : nat :=
  match list_find (λ r, r = (lhs, rhs)) rels with
  | Some (id, _) => id
  | None => length rels
  end.

Definition recorded (lhs rhs : Term) (rels : list (Term * Term)) : list (Term * Term) :=
  match list_find (λ r, r = (lhs, rhs)) rels with
  | Some _ => rels
  | None => rels ++ [(lhs, rhs)]
  end.

Lemma recordRelation_Ok lhs rhs (m : PropertyMap) :
  recordRelation lhs rhs m
  = Ok (relationID lhs rhs (Relations (System m)))
       (withRelations (recorded lhs rhs (Relations (System m))) m).
Proof.
  unfold recordRelation, relationID, recorded, withRelations. run.
  destruct (list_find _ _) as [[id r]|]; [|done].
  by destruct m as [[] ? ?].
Qed.

Lemma recorded_lookup lhs rhs rels :
  recorded lhs rhs rels !! relationID lhs rhs rels = Some (lhs, rhs).
Proof.
  unfold recorded, relationID.
  destruct (list_find _ _) as [[id r]|] eqn:E.
  - apply list_find_Some in E as (E & -> & _). done.
  - by rewrite lookup_app_r, Nat.sub_diag.
Qed.

Lemma submit_Ok e (m : PropertyMap) :
  submit e m = Ok () (withSubmitted (Submitted (System m) ++ [e]) m).
Proof. done. Qed.

Lemma length_invert p : length (invert p) = length p.
Proof. unfold invert. by rewrite length_reverse, length_fmap. Qed.

Lemma elem_of_invert s p : s ∈ invert p ↔ ∃ y, s = invertStep y ∧ y ∈ p.
Proof. unfold invert. by rewrite elem_of_reverse, list_elem_of_fmap. Qed.

Lemma invert_app p q : invert (p ++ q) = invert q ++ invert p.
Proof. unfold invert. by rewrite fmap_app, reverse_app. Qed.

Section Merging.
Context {env : Collaborators}.

(** The longer of the two right-hand sides; the conformance rule's on a tie. *)
Definition longerRHS (concreteRule conformanceRule : Rule) : Term :=
  if bool_decide (length (getRHS conformanceRule) < length (getRHS concreteRule))
  then getRHS concreteRule else getRHS conformanceRule.

(** [rhs.size() - rule.getRHS().size()] never wraps around: [rhs] is at
    least as long as either right-hand side. *)
Lemma longerRHS_ge rc rp :
  length (getRHS rc) ≤ length (longerRHS rc rp)
  ∧ length (getRHS rp) ≤ length (longerRHS rc rp).
Proof. unfold longerRHS. case_bool_decide; lia. Qed.

Lemma longerRHS_no_prefix rc rp :
  length (getRHS rp) ≤ length (getRHS rc) →
  length (longerRHS rc rp) - length (getRHS rc) = 0.
Proof.
  intros Hle. unfold longerRHS.
  destruct (bool_decide (length (getRHS rp) < length (getRHS rc))); lia.
Qed.

Lemma recordConcreteConformanceRule_Ok c p kind ccs (m : PropertyMap) rc rp sc sp substitutions :
  Rules (System m) !! c = Some rc →
  Rules (System m) !! p = Some rp →
  isPropertyRule rc = Some sc →
  isPropertyRule rp = Some sp →
  getSubstitutions ccs = Some substitutions →
  let rhs := longerRHS rc rp in
  let prefixLength := length rhs - length (getRHS rc) in
  let prefixed := bool_decide (0 < prefixLength) && negb (bool_decide (substitutions = [])) in
  let sc' := if prefixed
             then prependPrefixToConcreteSubstitutions (take prefixLength rhs) sc else sc in
  let id := relationID [sc'; sp] [ccs] (Relations (System m)) in
  let path :=
    invert ([forRewriteRule (length rhs - length (getRHS rp)) 0 p true;
             forRewriteRule prefixLength 1 c true]
            ++ (if prefixed then [forPrefixSubstitutions prefixLength 1 false] else [])
            ++ [forRelation (length rhs) id false]) in
  recordConcreteConformanceRule c p kind ccs m
  = Ok () (withSubmitted (Submitted (System m) ++ [AddRule (rhs ++ [ccs]) rhs (Some path)])
             (withRelations (recorded [sc'; sp] [ccs] (Relations (System m))) m)).
Proof.
  intros Hc Hp Hsc Hsp Hsub. simpl.
  unfold recordConcreteConformanceRule.
  rewrite (bind_Ok _ _ m rc m) by by apply getRule_Ok.
  rewrite (bind_Ok _ _ m rp m) by by apply getRule_Ok.
  fold (longerRHS rc rp). rewrite Hsc, Hsp, Hsub. simpl.
  set (k := length (longerRHS rc rp) - length (getRHS rc)).
  destruct (bool_decide (0 < k)) eqn:Ek; simpl.
  - rewrite ret_bind, bind_assoc, !ret_bind.
    unfold recordConcreteConformanceRelation.
    erewrite bind_Ok by apply recordRelation_Ok.
    unfold addRule. rewrite submit_Ok.
    destruct (negb (bool_decide (substitutions = []))); simpl; done.
  - rewrite !ret_bind.
    unfold recordConcreteConformanceRelation.
    erewrite bind_Ok by apply recordRelation_Ok.
    unfold addRule. by rewrite submit_Ok.
Qed.

(** C3, as the code has it.  Merging submits exactly one rule: its
    left-hand side is the longer of the two right-hand sides followed by
    the concrete-conformance symbol, its right-hand side that longer term.
    The substitution terms of the concrete symbol are re-prefixed, by the
    leading segment of the longer right-hand side, when the concrete rule's
    right-hand side is the shorter one and the conformance symbol has
    substitutions; when the conformance rule's is the shorter one, or they
    are equally long, the concrete symbol enters the relation as it is and
    the path has no prefix step. *)
Theorem rule_merging c p kind ccs (m : PropertyMap) rc rp sc sp substitutions :
  Rules (System m) !! c = Some rc →
  Rules (System m) !! p = Some rp →
  isPropertyRule rc = Some sc →
  isPropertyRule rp = Some sp →
  getSubstitutions ccs = Some substitutions →
  let rhs := longerRHS rc rp in
  ∃ m' sc' id path,
    recordConcreteConformanceRule c p kind ccs m = Ok () m'
    ∧ Submitted (System m')
      = Submitted (System m) ++ [AddRule (rhs ++ [ccs]) rhs (Some path)]
    ∧ Relations (System m') !! id = Some ([sc'; sp], [ccs])
    ∧ forRelation (length rhs) id true ∈ path
    ∧ (length (getRHS rc) < length (getRHS rp) → substitutions ≠ [] →
         let prefixLength := length (getRHS rp) - length (getRHS rc) in
         rhs = getRHS rp
         ∧ sc' = prependPrefixToConcreteSubstitutions (take prefixLength (getRHS rp)) sc
         ∧ forPrefixSubstitutions prefixLength 1 true ∈ path)
    ∧ (length (getRHS rp) ≤ length (getRHS rc) ∨ substitutions = [] →
         sc' = sc ∧ ∀ a b i, forPrefixSubstitutions a b i ∉ path).
Proof.
  intros Hc Hp Hsc Hsp Hsub rhs.
  pose proof (recordConcreteConformanceRule_Ok c p kind ccs m rc rp sc sp substitutions
                Hc Hp Hsc Hsp Hsub) as E.
  simpl in E. fold rhs in E.
  set (k := length rhs - length (getRHS rc)) in *.
  set (prefixed := bool_decide (0 < k) && negb (bool_decide (substitutions = []))) in *.
  eexists _, _, _, _. split; [exact E|]. simpl.
  split; [done|]. split; [apply recorded_lookup|].
  assert (Hlen : length (getRHS rc) < length (getRHS rp) →
                 rhs = getRHS rp ∧ k = length (getRHS rp) - length (getRHS rc)).
  { intros Hlt. subst k rhs. unfold longerRHS.
    rewrite bool_decide_false by lia. done. }
  split; [|split].
  - rewrite elem_of_invert.
    eexists (forRelation _ _ false). split; [done|].
    rewrite !elem_of_cons, elem_of_app, list_elem_of_singleton. auto.
  - intros Hlt Hne. destruct (Hlen Hlt) as [Erhs Ek].
    assert (prefixed = true) as ->.
    { subst prefixed. rewrite bool_decide_true by lia.
      by rewrite bool_decide_false. }
    rewrite <- Ek, <- Erhs. split; [done|]. split; [done|].
    rewrite elem_of_invert.
    eexists (forPrefixSubstitutions _ _ false). split; [done|].
    rewrite !elem_of_cons, elem_of_app, list_elem_of_singleton. auto.
  - intros Hle.
    assert (prefixed = false) as ->.
    { subst prefixed. destruct Hle as [Hle| ->].
      - rewrite (bool_decide_false (0 < k)); [done|]. subst k rhs.
        rewrite longerRHS_no_prefix by done. lia.
      - rewrite (bool_decide_true ([] = [])) by done. apply andb_false_r. }
    split; [done|]. intros a b i.
    rewrite elem_of_invert.
    intros (s & Es & Hs). simpl in Hs.
    rewrite !elem_of_cons, elem_of_nil in Hs.
    destruct Hs as [->| [->| [->|[]]]]; done.
Qed.

End Merging.

Lemma rule_merging_witness :
  ∃ m' id path,
    recordConcreteConformanceRule 1 0 SameType Example.FooConformance Example.shortConcrete
      = Ok () m'
    ∧ Submitted (System m')
      = [AddRule (Example.TV ++ [Example.FooConformance]) Example.TV (Some path)]
    ∧ Relations (System m') !! id
      = Some ([SymConcreteType Example.Foo [Example.T ++ Example.U]; SymProtocol Example.P],
              [Example.FooConformance])
    ∧ forPrefixSubstitutions 1 1 true ∈ path.
Proof.
  destruct (rule_merging 1 0 SameType Example.FooConformance Example.shortConcrete
              _ _ _ _ _ eq_refl eq_refl eq_refl eq_refl eq_refl)
    as (m' & sc' & id & path & E & S & R & _ & Hpre & _).
  destruct Hpre as (_ & -> & Hin); [vm_compute; lia | done |].
  exists m', id, path. split; [exact E|]. split; [exact S|]. split; [exact R | exact Hin].
Defined.

(** C3, as the spec words it, fails: here the conformance rule's right-hand
    side [[Q:V]] is shorter than the concrete rule's [T.[Q:V]], and the
    concrete symbol enters the relation with its substitution [U] as it
    was, through a path without a prefix step. *)
Lemma shorter_conformance_rule_is_not_reprefixed :
  ∃ m',
    recordConcreteConformanceRule 1 0 SameType Example.FooConformance Example.shortConformance
      = Ok () m'
    ∧ getRHS <$> Rules (System m') !! 0 = Some [SymAssociatedType Example.Q "V"]
    ∧ getRHS <$> Rules (System m') !! 1 = Some Example.TV
    ∧ Relations (System m')
      = [([SymConcreteType Example.Foo [Example.U]; SymProtocol Example.P],
          [Example.FooConformance])]
    ∧ Submitted (System m')
      = [AddRule (Example.TV ++ [Example.FooConformance]) Example.TV
           (Some [forRelation 2 0 true; forRewriteRule 0 1 1 false;
                  forRewriteRule 1 0 0 false])].
Proof. eexists. vm_compute. done. Qed.

(** ** The type-witness rule synthesizer *)

(** What may differ between two states when only relations were recorded. *)
Definition sameButRelations (m m' : PropertyMap) : Prop :=
  Rules (System m') = Rules (System m)
  ∧ Protos (System m') = Protos (System m)
  ∧ Submitted (System m') = Submitted (System m)
  ∧ Entries m' = Entries m
  ∧ ConcreteConformances m' = ConcreteConformances m.

Lemma sameButRelations_refl m : sameButRelations m m.
Proof. by repeat split. Qed.

Lemma sameButRelations_trans m1 m2 m3 :
  sameButRelations m1 m2 → sameButRelations m2 m3 → sameButRelations m1 m3.
Proof.
  intros (?&?&?&?&?) (?&?&?&?&?). repeat split; congruence.
Qed.

Lemma sameButRelations_withRelations rels m : sameButRelations m (withRelations rels m).
Proof. by repeat split. Qed.

Ltac mnorm := repeat (rewrite bind_assoc || rewrite ret_bind).

Ltac invert_run :=
  repeat match goal with
  | H : Ok _ _ = Ok _ _ |- _ => inversion H; subst; clear H
  | H : Failed _ = Ok _ _ |- _ => discriminate H
  | H : fail _ _ = Ok _ _ |- _ => discriminate H
  | H : mret _ _ = Ok _ _ |- _ => inversion H; subst; clear H
  | H : getMap _ = Ok _ _ |- _ => inversion H; subst; clear H
  | H : recordRelation _ _ _ = Ok _ _ |- _ =>
      rewrite recordRelation_Ok in H; inversion H; subst; clear H
  | H : submit _ _ = Ok _ _ |- _ => rewrite submit_Ok in H; inversion H; subst; clear H
  | H : putSystem _ _ = Ok _ _ |- _ => inversion H; subst; clear H
  | H : putEntries _ _ = Ok _ _ |- _ => inversion H; subst; clear H
  | H : putConcreteConformances _ _ = Ok _ _ |- _ => inversion H; subst; clear H
  | H : assert ?b _ _ = Ok _ _ |- _ =>
      destruct b eqn:?; [inversion H; subst; clear H | discriminate H]
  | H : deref ?o _ _ = Ok _ _ |- _ =>
      destruct o eqn:?; [inversion H; subst; clear H | discriminate H]
  | H : mbind _ _ _ = Ok _ _ |- _ =>
      let a := fresh "a" in let m := fresh "m" in let E := fresh "E" in
      apply bind_inv in H as (a & m & E & H)
  | H : (let '(_, _) := ?a in _) _ = Ok _ _ |- _ => destruct a
  | H : (if ?b then _ else _) _ = Ok _ _ |- _ => destruct b eqn:?
  | H : match ?d with Some _ => _ | None => _ end _ = Ok _ _ |- _ => destruct d eqn:?
  end.

Section Synthesizer.
Context {env : Collaborators}.

(** [Symbol::forConcreteType(typeWitnessSchema, result, Context)] *)
Definition witnessSymbol (typeWitness : CanType) (substitutions : list Term) : Symbol :=
  SymConcreteType (getRelativeSubstitutionSchemaFromType typeWitness substitutions).1
                  (getRelativeSubstitutionSchemaFromType typeWitness substitutions).2.

(** The subject term [T.[concrete: C : P].[P:X]] *)
Definition subjectOf (key : Term) (concreteConformanceSymbol : Symbol)
    (proto : ProtocolDecl) (assocType : AssociatedTypeDecl) : MutableTerm :=
  (key ++ [concreteConformanceSymbol]) ++ [SymAssociatedType proto (assocName assocType)].

(** The witness the synthesizer works with: the conformance's, or the error
    type when it has none. *)
Definition witnessOrError (concrete : ProtocolConformance) (assocType : AssociatedTypeDecl)
    (concreteType : CanType) : CanType :=
  match getTypeWitness concrete assocType with
  | Some t => t
  | None => ErrorType concreteType
  end.

Lemma compute_abstract key kind concreteType w subject substitutions path (m : PropertyMap) :
  isTypeParameter w = true →
  let R := getRelativeTermForType w substitutions in
  computeConstraintTermForTypeWitness key kind concreteType w subject substitutions path m
  = Ok (R, path ++ [forRelation 0 (relationID R subject (Relations (System m))) false])
       (withRelations (recorded R subject (Relations (System m))) m).
Proof.
  intros Hw R. unfold computeConstraintTermForTypeWitness. rewrite Hw.
  by erewrite bind_Ok by apply recordRelation_Ok.
Qed.

Lemma compute_prefix key kind concreteType w subject substitutions path (m : PropertyMap) props :
  isTypeParameter w = false →
  hasTypeParameter w = false →
  findPrefixWithConcreteType (Entries m) key w (length key) = Some props →
  let result := PropertyBag.getKey props ++ [witnessSymbol w substitutions] in
  computeConstraintTermForTypeWitness key kind concreteType w subject substitutions path m
  = Ok (result, path ++ [forRelation 0 (relationID result subject (Relations (System m))) false])
       (withRelations (recorded result subject (Relations (System m))) m).
Proof.
  intros Hw Hground Hfind result. unfold computeConstraintTermForTypeWitness.
  rewrite Hw. subst result. unfold witnessSymbol.
  destruct (getRelativeSubstitutionSchemaFromType w substitutions) as [schema terms].
  rewrite (bind_Ok getMap _ m m m) by done.
  rewrite Hground, Hfind.
  by erewrite bind_Ok by apply recordRelation_Ok.
Qed.

(** Whatever branch is taken, the path that comes back ends in a relation
    step, and only the relations of the system have changed. *)
Lemma compute_inv key kind concreteType w subject substitutions path (m : PropertyMap) t p' m' :
  computeConstraintTermForTypeWitness key kind concreteType w subject substitutions path m
    = Ok (t, p') m' →
  (∃ q off id inv, p' = path ++ q ++ [forRelation off id inv]) ∧ sameButRelations m m'.
Proof.
  unfold computeConstraintTermForTypeWitness, recordConcreteTypeWitnessRelation,
    recordSameTypeWitnessRelation.
  intros E. destruct (isTypeParameter w);
    [| destruct (getRelativeSubstitutionSchemaFromType w substitutions) as [schema terms]];
    invert_run;
    repeat match goal with
    | H : context [simplifySubstitutions ?a ?b ?c ?d] |- _ =>
        destruct (simplifySubstitutions a b c d)
    end;
    invert_run; try done.
  all: split; [| by repeat split].
  all: rewrite <- ?app_assoc;
    first [ by eexists [], _, _, _ | by eexists _, _, _, _
          | by eexists (_ :: _), _, _, _ ].
Qed.

Lemma concretize_from_compute key kind concreteType substitutions proto concrete assocType
    (m : PropertyMap) t p' m1 :
  let ccs := SymConcreteConformance concreteType substitutions proto in
  let subject := subjectOf key ccs proto assocType in
  computeConstraintTermForTypeWitness key kind concreteType
    (witnessOrError concrete assocType concreteType) subject substitutions [] m
    = Ok (t, p') m1 →
  concretizeTypeWitnessInConformance key kind ccs concrete assocType m
  = Ok () (withSubmitted (Submitted (System m1) ++ [AddRule t subject (Some p')]) m1).
Proof.
  intros ccs subject E. unfold concretizeTypeWitnessInConformance. simpl.
  rewrite !ret_bind. fold ccs. fold (subjectOf key ccs proto assocType). fold subject.
  fold (witnessOrError concrete assocType concreteType).
  rewrite (bind_Ok _ _ _ _ _ E). simpl.
  destruct (compute_inv _ _ _ _ _ _ _ _ _ _ _ E) as [(q & off & id & inv & ->) _].
  rewrite bool_decide_false by (by destruct q). simpl.
  rewrite ret_bind. unfold addRule. by rewrite submit_Ok.
Qed.

(** Every run of [concretizeTypeWitnessInConformance] that returns has
    submitted exactly one rule, with the subject term on the right and a
    path that is not empty, and has changed nothing else but relations. *)
Lemma concretize_inv key kind ccs concrete assocType (m m' : PropertyMap) :
  concretizeTypeWitnessInConformance key kind ccs concrete assocType m = Ok () m' →
  ∃ concreteType substitutions proto t p' m1,
    ccs = SymConcreteConformance concreteType substitutions proto
    ∧ computeConstraintTermForTypeWitness key kind concreteType
        (witnessOrError concrete assocType concreteType)
        (subjectOf key ccs proto assocType) substitutions [] m = Ok (t, p') m1
    ∧ (∃ q off id inv, p' = q ++ [forRelation off id inv])
    ∧ sameButRelations m m1
    ∧ m' = withSubmitted (Submitted (System m1)
                          ++ [AddRule t (subjectOf key ccs proto assocType) (Some p')]) m1.
Proof.
  unfold concretizeTypeWitnessInConformance. intros E.
  destruct ccs; simpl in E; try done.
  rewrite !ret_bind in E. apply bind_inv in E as ([t p'] & m1 & E1 & E).
  eexists _, _, _, t, p', m1. split; [done|]. split; [exact E1|].
  destruct (compute_inv _ _ _ _ _ _ _ _ _ _ _ E1) as [(q & off & id & inv & ->) Hsame].
  split; [by eexists _, _, _, _|]. split; [done|].
  rewrite bool_decide_false in E by (by destruct q). simpl in E.
  rewrite ret_bind in E. unfold addRule in E. rewrite submit_Ok in E. by inversion E.
Qed.

(** A bag has [w] as its concrete type. *)
Definition bagHasConcreteType (props : PropertyBag.t) (w : CanType) : Prop :=
  PropertyBag.ConcreteType props ≫= getConcreteType = Some w.

Lemma findPrefix_Some entries key w len props :
  findPrefixWithConcreteType entries key w len = Some props ↔
  ∃ n, 1 ≤ n ≤ len
       ∧ lookUpProperties entries (take n key) = Some props
       ∧ bagHasConcreteType props w
       ∧ ∀ n' props', n < n' ≤ len →
           lookUpProperties entries (take n' key) = Some props' →
           ¬ bagHasConcreteType props' w.
Proof.
  unfold bagHasConcreteType. induction len as [|len IH].
  { simpl. split; [done|]. intros (n & ? & _). lia. }
  cbn [findPrefixWithConcreteType].
  destruct (lookUpProperties entries (take (S len) key)) as [here|] eqn:Ehere.
  - destruct (decide (PropertyBag.ConcreteType here ≫= getConcreteType = Some w))
      as [Hyes|Hno].
    + assert (PropertyBag.isConcreteType here = true) as ->.
      { unfold PropertyBag.isConcreteType. apply bool_decide_eq_true.
        destruct (PropertyBag.ConcreteType here); [by eexists | done]. }
      rewrite bool_decide_true by done. simpl. split.
      * intros [= <-]. exists (S len). split; [lia|]. split; [done|]. split; [done|].
        intros n' props' ?. lia.
      * intros (n & Hn & Hl & Hc & Hlonger).
        destruct (decide (n = S len)) as [->|]; [congruence|].
        exfalso. eapply (Hlonger (S len)); [lia | done | done].
    + rewrite (bool_decide_false _ Hno), andb_false_r. rewrite IH. split.
      * intros (n & Hn & Hl & Hc & Hlonger). exists n. split; [lia|]. split; [done|]. split; [done|].
        intros n' props' Hn' Hl'. destruct (decide (n' = S len)) as [->|].
        -- congruence.
        -- apply (Hlonger n'); [lia | done].
      * intros (n & Hn & Hl & Hc & Hlonger).
        destruct (decide (n = S len)) as [->|]; [congruence|].
        exists n. split; [lia|]. split; [done|]. split; [done|].
        intros n' props' Hn'. apply Hlonger. lia.
  - rewrite IH. split.
    + intros (n & Hn & Hl & Hc & Hlonger). exists n. split; [lia|]. split; [done|]. split; [done|].
      intros n' props' Hn' Hl'. destruct (decide (n' = S len)) as [->|].
      * congruence.
      * apply (Hlonger n'); [lia | done].
    + intros (n & Hn & Hl & Hc & Hlonger).
      destruct (decide (n = S len)) as [->|]; [congruence|].
      exists n. split; [lia|]. split; [done|]. split; [done|].
      intros n' props' Hn'. apply Hlonger. lia.
Qed.

(** The tie-off, as far as this file goes.  For a witness [w] without type
    parameters the prefixes of the key are tried from the whole key down to
    its first symbol; at the first one whose bag has exactly [w] as its
    concrete type the synthesizer records the relation between that bag's
    key followed by the concrete-type symbol of [w] and the subject term,
    and hands [addRule] that pair, [bagKey.[concrete: w]] first and the
    subject term second, with the one-step path through the relation.  The
    rule [addRule] stores for the pair, after reducing [bagKey.[concrete: w]]
    by the bag's own concrete-type rule and orienting, is outside this
    file. *)
Theorem prefix_tie_off_rule key kind concreteType substitutions proto concrete assocType w
    (m : PropertyMap) n props :
  getTypeWitness concrete assocType = Some w →
  isTypeParameter w = false →
  hasTypeParameter w = false →
  1 ≤ n ≤ length key →
  lookUpProperties (Entries m) (take n key) = Some props →
  bagHasConcreteType props w →
  (∀ n' props', n < n' ≤ length key →
     lookUpProperties (Entries m) (take n' key) = Some props' →
     ¬ bagHasConcreteType props' w) →
  let ccs := SymConcreteConformance concreteType substitutions proto in
  let subject := key ++ [ccs; SymAssociatedType proto (assocName assocType)] in
  let lhs := PropertyBag.getKey props ++ [witnessSymbol w substitutions] in
  ∃ m' id,
    concretizeTypeWitnessInConformance key kind ccs concrete assocType m = Ok () m'
    ∧ Relations (System m') !! id = Some (lhs, subject)
    ∧ Submitted (System m')
      = Submitted (System m) ++ [AddRule lhs subject (Some [forRelation 0 id false])].
Proof.
  intros Hw Habs Hground Hn Hl Hc Hlonger ccs subject lhs.
  assert (Hsubj : subject = subjectOf key ccs proto assocType).
  { unfold subject, subjectOf. by rewrite <- app_assoc. }
  rewrite Hsubj. eexists _, _. split.
  { apply concretize_from_compute. unfold witnessOrError. rewrite Hw.
    apply compute_prefix; [done..|]. apply findPrefix_Some. by exists n. }
  split; [apply recorded_lookup | done].
Qed.

(** *** A concrete witness that no prefix ties off *)

(** The outcome of [simplifySubstitutions]: the symbol and the path the
    synthesizer goes on with. *)
Definition simplifiedSymbol (d : option TypeDifference) (typeWitnessSymbol : Symbol) : Symbol :=
  match d with Some d => diffRHS d | None => typeWitnessSymbol end.
Definition simplifiedPath (d : option TypeDifference) (substPath : RewritePath) : RewritePath :=
  match d with Some _ => invert substPath | None => substPath end.

Lemma lookup_penultimate (key : Term) a b :
  (key ++ [a; b]) !! (length (key ++ [a; b]) - 2) = Some a.
Proof.
  rewrite length_app. simpl. replace (length key + 2 - 2) with (length key + 0) by lia.
  by rewrite lookup_app_r, Nat.add_0_r, Nat.sub_diag by lia.
Qed.

Lemma lookup_ultimate (key : Term) a b :
  (key ++ [a; b]) !! (length (key ++ [a; b]) - 1) = Some b.
Proof.
  rewrite length_app. simpl. replace (length key + 2 - 1) with (length key + 1) by lia.
  rewrite lookup_app_r by lia. by replace (length key + 1 - length key) with 1 by lia.
Qed.

(** The part of [computeConstraintTermForTypeWitness] after the prefixes
    have been tried in vain, up to the comparison with the parent type. *)
Lemma compute_no_prefix key kind concreteType w ccs ats substitutions path (m : PropertyMap) d sp :
  isTypeParameter w = false →
  (if hasTypeParameter w then None
   else findPrefixWithConcreteType (Entries m) key w (length key)) = None →
  let tws := witnessSymbol w substitutions in
  let rels1 := recorded [ccs; ats; tws] [ccs; ats] (Relations (System m)) in
  let concreteID := relationID [ccs; ats; tws] [ccs; ats] (Relations (System m)) in
  let m1 := withRelations rels1 m in
  simplifySubstitutions key tws (Entries m1) (System m1) = (d, sp) →
  (∀ d', d = Some d' → diffLHS d' = tws) →
  let tws' := simplifiedSymbol d tws in
  let sp' := simplifiedPath d sp in
  computeConstraintTermForTypeWitness key kind concreteType w (key ++ [ccs; ats])
    substitutions path m
  = ((if bool_decide (kind = SameType) then
        c ← deref (getConcreteType tws') WrongSymbolKind;
        if bool_decide (c = concreteType) then
          l ← deref (getSubstitutions tws') WrongSymbolKind;
          mret (bool_decide (l = substitutions))
        else mret false
      else mret false) ≫= λ same : bool,
     if same then
       sameRelationID ← recordSameTypeWitnessRelation ccs ats;
       mret (key ++ [ccs],
             (path ++ [forRelation (length key) sameRelationID true]) ++ sp'
               ++ [forRelation (length key) concreteID false])
     else
       mret ((key ++ [ccs; ats]) ++ [tws'],
             path ++ sp' ++ [forRelation (length key) concreteID false])) m1.
Proof.
  intros Hw Hnone tws rels1 concreteID m1 Hsimp Hcontract tws' sp'.
  unfold computeConstraintTermForTypeWitness. rewrite Hw.
  assert (Etws : tws = SymConcreteType
                         (getRelativeSubstitutionSchemaFromType w substitutions).1
                         (getRelativeSubstitutionSchemaFromType w substitutions).2) by done.
  destruct (getRelativeSubstitutionSchemaFromType w substitutions) as [schema terms].
  simpl in Etws. rewrite <- Etws.
  rewrite (bind_Ok getMap _ m m m) by done. rewrite Hnone.
  rewrite (bool_decide_true (2 ≤ length (key ++ [ccs; ats])))
    by (rewrite length_app; simpl; lia).
  simpl. rewrite ret_bind.
  rewrite lookup_penultimate, lookup_ultimate. simpl. rewrite !ret_bind.
  unfold recordConcreteTypeWitnessRelation.
  erewrite bind_Ok by apply recordRelation_Ok.
  rewrite (bind_Ok getMap _ _ _ _ eq_refl).
  fold rels1. fold m1. rewrite Hsimp.
  destruct d as [d'|]; simpl.
  - rewrite (bool_decide_true (diffLHS d' = tws)) by (by apply Hcontract). simpl.
    by rewrite bind_assoc, !ret_bind.
  - by rewrite ret_bind.
Qed.

(** C7.  Under a same-type requirement, when no prefix ties the witness off
    and the witness symbol, once its substitutions are simplified, has the
    schema and the substitutions of the parent concrete type, exactly one
    rule is submitted: [T.S => T.S.[M]], the key followed by the
    concrete-conformance symbol on the left and the subject term on the
    right.  Its sides are one and two symbols longer than the key. *)
Theorem self_referential_rule key concreteType substitutions proto concrete assocType w
    (m : PropertyMap) d sp :
  getTypeWitness concrete assocType = Some w →
  isTypeParameter w = false →
  (if hasTypeParameter w then None
   else findPrefixWithConcreteType (Entries m) key w (length key)) = None →
  let S := SymConcreteConformance concreteType substitutions proto in
  let M := SymAssociatedType proto (assocName assocType) in
  let tws := witnessSymbol w substitutions in
  let m1 := withRelations (recorded [S; M; tws] [S; M] (Relations (System m))) m in
  simplifySubstitutions key tws (Entries m1) (System m1) = (d, sp) →
  (∀ d', d = Some d' → diffLHS d' = tws) →
  getConcreteType (simplifiedSymbol d tws) = Some concreteType →
  getSubstitutions (simplifiedSymbol d tws) = Some substitutions →
  ∃ m' sameID concreteID,
    concretizeTypeWitnessInConformance key SameType S concrete assocType m = Ok () m'
    ∧ Submitted (System m')
      = Submitted (System m)
        ++ [AddRule (key ++ [S]) (key ++ [S; M])
              (Some ([forRelation (length key) sameID true] ++ simplifiedPath d sp
                     ++ [forRelation (length key) concreteID false]))]
    ∧ length (key ++ [S]) = length key + 1
    ∧ length (key ++ [S; M]) = length key + 2.
Proof.
  intros Hw Habs Hnone S M tws m1 Hsimp Hcontract Hc Hl.
  assert (Hsubj : key ++ [S; M] = subjectOf key S proto assocType).
  { unfold subjectOf. by rewrite <- app_assoc. }
  eexists _, _, _. split.
  { apply concretize_from_compute. unfold witnessOrError. rewrite Hw.
    fold S. rewrite <- Hsubj.
    erewrite compute_no_prefix by done.
    rewrite bool_decide_true by done. fold tws. rewrite Hc. simpl.
    mnorm. rewrite bool_decide_true by done. rewrite Hl. simpl.
    mnorm. rewrite bool_decide_true by done.
    unfold recordSameTypeWitnessRelation. simpl.
    mnorm. erewrite bind_Ok by apply recordRelation_Ok.
    reflexivity. }
  split; [by rewrite Hsubj|]. rewrite !length_app. simpl. lia.
Qed.

(** *** A witness that could not be resolved *)

(** What the synthesizer asserts of [simplifySubstitutions]: a difference
    starts from the symbol that was given, and ends in a symbol that has a
    concrete type and substitutions. *)
Definition simplifyContract : Prop :=
  ∀ key sym entries sys d p,
    simplifySubstitutions key sym entries sys = (Some d, p) →
    diffLHS d = sym
    ∧ is_Some (getConcreteType (diffRHS d))
    ∧ is_Some (getSubstitutions (diffRHS d)).

Lemma compute_total key kind concreteType w ccs ats substitutions path (m : PropertyMap) :
  simplifyContract →
  is_Some (getConcreteType ccs) →
  is_Some (getSubstitutions ccs) →
  ∃ r m1,
    computeConstraintTermForTypeWitness key kind concreteType w (key ++ [ccs; ats])
      substitutions path m = Ok r m1.
Proof.
  intros Hcontract [c Hc] [l Hl].
  destruct (isTypeParameter w) eqn:Hw.
  { eexists _, _. by apply compute_abstract. }
  destruct (if hasTypeParameter w then None
            else findPrefixWithConcreteType (Entries m) key w (length key))
    as [props|] eqn:Hfind.
  { destruct (hasTypeParameter w) eqn:Hground; [done|].
    eexists _, _. by apply compute_prefix. }
  set (tws := witnessSymbol w substitutions).
  set (m1 := withRelations (recorded [ccs; ats; tws] [ccs; ats] (Relations (System m))) m).
  destruct (simplifySubstitutions key tws (Entries m1) (System m1)) as [d sp] eqn:Hsimp.
  assert (Hd : ∀ d', d = Some d' → diffLHS d' = tws).
  { intros d' ->. by destruct (Hcontract _ _ _ _ _ _ Hsimp). }
  assert (Hsym : is_Some (getConcreteType (simplifiedSymbol d tws))
                 ∧ is_Some (getSubstitutions (simplifiedSymbol d tws))).
  { destruct d as [d'|]; simpl.
    - by destruct (Hcontract _ _ _ _ _ _ Hsimp) as (_ & ? & ?).
    - split; by eexists. }
  destruct Hsym as [[c' Hc'] [l' Hl']].
  erewrite compute_no_prefix by done. fold tws.
  assert (Hsame : ∀ p1 p2,
    ∃ r m2, (recordSameTypeWitnessRelation ccs ats ≫= λ id : nat,
               mret (key ++ [ccs],
                     (path ++ [forRelation (length key) id true]) ++ p1 ++ p2)) m1
            = Ok r m2).
  { intros p1 p2. unfold recordSameTypeWitnessRelation. rewrite Hc, Hl. simpl. mnorm.
    erewrite bind_Ok by apply recordRelation_Ok. by eexists _, _. }
  destruct (bool_decide (kind = SameType)); [|mnorm; by eexists _, _].
  rewrite Hc'. simpl. mnorm.
  destruct (bool_decide (c' = concreteType)); [|mnorm; by eexists _, _].
  rewrite Hl'. simpl. mnorm.
  destruct (bool_decide (l' = substitutions)); [apply Hsame | by eexists _, _].
Qed.

(** C9.  When the conformance has no witness for a member type, the
    synthesizer goes on with [ErrorType::get(concreteType)] as the witness:
    it builds the subject term [T.S.[M]], computes the constraint term for
    the error type, and submits one rule with the subject term on the
    right and a path that is not empty; the loop over the member types then
    goes on with the next one.  (The only way not to return is a
    [simplifySubstitutions] that breaks what the function asserts of it.) *)
Theorem unresolved_witness_still_yields_rule
    key kind concreteType substitutions proto concrete assocType rest (m : PropertyMap) :
  simplifyContract →
  getTypeWitness concrete assocType = None →
  let S := SymConcreteConformance concreteType substitutions proto in
  let subject := key ++ [S; SymAssociatedType proto (assocName assocType)] in
  let body := concretizeTypeWitnessInConformance key kind S concrete in
  ∃ lhs path m1 m',
    computeConstraintTermForTypeWitness key kind concreteType (ErrorType concreteType)
      subject substitutions [] m = Ok (lhs, path) m1
    ∧ body assocType m = Ok () m'
    ∧ Submitted (System m') = Submitted (System m) ++ [AddRule lhs subject (Some path)]
    ∧ path ≠ []
    ∧ forEach body (assocType :: rest) m = forEach body rest m'.
Proof.
  intros Hcontract Hnone S subject body.
  destruct (compute_total key kind concreteType (ErrorType concreteType) S
              (SymAssociatedType proto (assocName assocType)) substitutions [] m)
    as ([lhs path] & m1 & E); [done | by eexists .. |].
  fold subject in E.
  assert (Hsubj : subject = subjectOf key S proto assocType).
  { unfold subject, subjectOf. by rewrite <- app_assoc. }
  assert (Ebody : body assocType m
                  = Ok () (withSubmitted (Submitted (System m1)
                                          ++ [AddRule lhs subject (Some path)]) m1)).
  { subst body. rewrite Hsubj. apply concretize_from_compute.
    unfold witnessOrError. rewrite Hnone. rewrite Hsubj in E. exact E. }
  destruct (compute_inv _ _ _ _ _ _ _ _ _ _ _ E)
    as [(q & off & id & inv & Hpath) (_ & _ & Hsub & _)].
  eexists lhs, path, m1, _. split; [done|]. split; [exact Ebody|].
  split; [simpl; by rewrite Hsub|]. split.
  { rewrite Hpath. by destruct q. }
  rewrite forEach_cons. by erewrite bind_Ok by exact Ebody.
Qed.


End Synthesizer.

Lemma prefix_tie_off_rule_witness :
  ∃ m' id,
    concretizeTypeWitnessInConformance (env := Example.collaborators [Example.BarP])
      Example.TV SameType Example.BarConformance Example.BarP (mkAssoc "A") Example.tieOff
      = Ok () m'
    ∧ Relations (System m') !! id
      = Some (Example.T ++ [SymConcreteType Example.Int []],
              Example.TV ++ [Example.BarConformance; SymAssociatedType Example.P "A"])
    ∧ Submitted (System m')
      = [AddRule (Example.T ++ [SymConcreteType Example.Int []])
                 (Example.TV ++ [Example.BarConformance; SymAssociatedType Example.P "A"])
                 (Some [forRelation 0 id false])].
Proof.
  refine (prefix_tie_off_rule (env := Example.collaborators [Example.BarP])
            Example.TV SameType Example.Bar [] Example.P Example.BarP (mkAssoc "A")
            Example.Int Example.tieOff 1 _ eq_refl eq_refl eq_refl _ eq_refl eq_refl _).
  - vm_compute. lia.
  - intros n' props' Hn'. assert (n' = 2) as -> by (vm_compute in Hn'; lia).
    intros [= <-]. vm_compute. discriminate.
Defined.

Lemma self_referential_rule_witness :
  ∃ m' sameID concreteID,
    concretizeTypeWitnessInConformance (env := Example.collaborators [Example.LoopP])
      Example.T SameType Example.LoopConformance Example.LoopP (mkAssoc "A") Example.loop
      = Ok () m'
    ∧ Submitted (System m')
      = [] ++ [AddRule (Example.T ++ [Example.LoopConformance])
                 (Example.T ++ [Example.LoopConformance; SymAssociatedType Example.P "A"])
                 (Some ([forRelation 1 sameID true] ++ []
                        ++ [forRelation 1 concreteID false]))]
    ∧ length (Example.T ++ [Example.LoopConformance]) = 1 + 1
    ∧ length (Example.T ++ [Example.LoopConformance; SymAssociatedType Example.P "A"])
      = 1 + 2.
Proof.
  refine (self_referential_rule (env := Example.collaborators [Example.LoopP])
            Example.T Example.Loop [Example.U] Example.P Example.LoopP (mkAssoc "A")
            Example.Loop Example.loop None [] eq_refl eq_refl eq_refl eq_refl _
            eq_refl eq_refl).
  intros d' Hd'. discriminate Hd'.
Defined.

Lemma fixture_simplifyContract table :
  simplifyContract (env := Example.collaborators table).
Proof. intros key sym entries sys d p E. discriminate E. Defined.

Lemma unresolved_witness_still_yields_rule_witness :
  ∃ lhs path m1 m',
    computeConstraintTermForTypeWitness (env := Example.collaborators [Example.BarP])
      Example.TV SameType Example.Bar (ErrorType Example.Bar)
      (Example.TV ++ [Example.BarConformance; SymAssociatedType Example.P "C"]) [] []
      Example.tieOff = Ok (lhs, path) m1
    ∧ concretizeTypeWitnessInConformance (env := Example.collaborators [Example.BarP])
        Example.TV SameType Example.BarConformance Example.BarP (mkAssoc "C") Example.tieOff
      = Ok () m'
    ∧ Submitted (System m')
      = [] ++ [AddRule lhs
                 (Example.TV ++ [Example.BarConformance; SymAssociatedType Example.P "C"])
                 (Some path)]
    ∧ path ≠ []
    ∧ forEach (concretizeTypeWitnessInConformance (env := Example.collaborators [Example.BarP])
                 Example.TV SameType Example.BarConformance Example.BarP)
        [mkAssoc "C"] Example.tieOff
      = forEach (concretizeTypeWitnessInConformance
                   (env := Example.collaborators [Example.BarP])
                   Example.TV SameType Example.BarConformance Example.BarP)
          [] m'.
Proof.
  exact (unresolved_witness_still_yields_rule (env := Example.collaborators [Example.BarP])
           Example.TV SameType Example.Bar [] Example.P Example.BarP (mkAssoc "C") []
           Example.tieOff (fixture_simplifyContract _) eq_refl).
Defined.


(** ** The conditional requirement inferencer *)

Definition withProtos (protos : list ProtocolDecl) (m : PropertyMap) : PropertyMap :=
  mkMap (mkSystem (Rules (System m)) (Relations (System m)) protos (Submitted (System m)))
        (Entries m) (ConcreteConformances m).

Lemma forEach_submit {A} (f : A → Submission) (xs : list A) (m : PropertyMap) :
  forEach (λ x, submit (f x)) xs m
  = Ok () (withSubmitted (Submitted (System m) ++ (f <$> xs)) m).
Proof.
  revert m. induction xs as [|x xs IH]; intros m; simpl.
  - rewrite app_nil_r. by destruct m as [[] ? ?].
  - erewrite bind_Ok by apply submit_Ok. rewrite IH. simpl.
    by rewrite <- app_assoc.
Qed.

Section Inferencer.
Context {env : Collaborators}.

(** What registering the protocol of a conformance requirement submits, and
    the protocol map it leaves: nothing and the same map, unless the
    requirement is a conformance to a protocol the system does not know. *)
Definition registration (protos : list ProtocolDecl) (req : Requirement)
    : list Submission * list ProtocolDecl :=
  match req with
  | ReqConformance _ proto =>
      if bool_decide (proto ∈ protos) then ([], protos)
      else
        let builder := buildRulesForProtocol protos proto in
        (((λ rule, AddPermanentRule rule.1 rule.2) <$> PermanentRules builder)
         ++ ((λ rule, AddExplicitRule rule.1 rule.2) <$> RequirementRules builder),
         ProtocolMap builder)
  | _ => ([], protos)
  end.

Definition ruleOf (substitutions : list Term) (req : Requirement) : Submission :=
  AddRule (getRuleForRequirement req substitutions).1
          (getRuleForRequirement req substitutions).2 None.

Lemma addRuleForRequirement_Ok substitutions req (m : PropertyMap) :
  addRuleForRequirement substitutions req m
  = Ok () (withSubmitted
             (Submitted (System m) ++ (registration (Protos (System m)) req).1
                ++ [ruleOf substitutions req])
             (withProtos (registration (Protos (System m)) req).2 m)).
Proof.
  unfold addRuleForRequirement, registration, ruleOf, addRule.
  assert (Hplain : (mret () ≫= λ _ : (),
                      submit (AddRule (getRuleForRequirement req substitutions).1
                                      (getRuleForRequirement req substitutions).2 None)) m
                   = Ok () (withSubmitted
                              (Submitted (System m) ++ [] ++
                                 [AddRule (getRuleForRequirement req substitutions).1
                                    (getRuleForRequirement req substitutions).2 None])
                              (withProtos (Protos (System m)) m))).
  { rewrite ret_bind, submit_Ok. by destruct m as [[] ? ?]. }
  destruct req as [t proto| | |]; try exact Hplain.
  unfold isKnownProtocol. mnorm. rewrite (bind_Ok getMap _ m m m) by done. mnorm.
  destruct (bool_decide (proto ∈ Protos (System m))); simpl; [exact Hplain|].
  mnorm. rewrite (bind_Ok getMap _ m m m) by done.
  mnorm. erewrite (bind_Ok (putSystem _)) by reflexivity.
  unfold addPermanentRule, addExplicitRule.
  mnorm. erewrite bind_Ok by apply (forEach_submit (λ rule, AddPermanentRule rule.1 rule.2)).
  mnorm. erewrite bind_Ok by apply (forEach_submit (λ rule, AddExplicitRule rule.1 rule.2)).
  rewrite submit_Ok. simpl. by rewrite <- !app_assoc.
Qed.

(** The submissions of the second loop of [inferConditionalRequirements],
    and the protocol map after it. *)
Fixpoint conditionalSubmissions (substitutions : list Term) (reqs : list Requirement)
    (protos : list ProtocolDecl) : list Submission :=
  match reqs with
  | [] => []
  | req :: rest =>
      (registration protos req).1 ++ [ruleOf substitutions req]
      ++ conditionalSubmissions substitutions rest (registration protos req).2
  end.

Fixpoint conditionalProtos (reqs : list Requirement) (protos : list ProtocolDecl)
    : list ProtocolDecl :=
  match reqs with
  | [] => protos
  | req :: rest => conditionalProtos rest (registration protos req).2
  end.

Lemma forEach_addRuleForRequirement substitutions reqs (m : PropertyMap) :
  forEach (addRuleForRequirement substitutions) reqs m
  = Ok () (withSubmitted
             (Submitted (System m)
              ++ conditionalSubmissions substitutions reqs (Protos (System m)))
             (withProtos (conditionalProtos reqs (Protos (System m))) m)).
Proof.
  revert m. induction reqs as [|req rest IH]; intros m; simpl.
  - rewrite app_nil_r. by destruct m as [[] ? ?].
  - erewrite bind_Ok by apply addRuleForRequirement_Ok. rewrite IH. simpl.
    by rewrite <- !app_assoc.
Qed.

Lemma inferConditionalRequirements_Ok concrete substitutions (m : PropertyMap) :
  let reqs := concat (desugarRequirement <$> getConditionalRequirements concrete) in
  inferConditionalRequirements concrete substitutions m
  = if bool_decide (getConditionalRequirements concrete = []) then Ok () m
    else Ok () (withSubmitted
                  (Submitted (System m)
                   ++ conditionalSubmissions substitutions reqs (Protos (System m)))
                  (withProtos (conditionalProtos reqs (Protos (System m))) m)).
Proof.
  intros reqs. unfold inferConditionalRequirements.
  destruct (bool_decide (getConditionalRequirements concrete = [])); [done|].
  apply forEach_addRuleForRequirement.
Qed.

(** No rule of the inferencer has a path. *)
Lemma registration_no_AddRule protos req lhs rhs path :
  AddRule lhs rhs path ∉ (registration protos req).1.
Proof.
  unfold registration. destruct req; try apply not_elem_of_nil.
  case_bool_decide; [apply not_elem_of_nil|]. simpl.
  rewrite elem_of_app, !list_elem_of_fmap. intros [(? & ? & _)|(? & ? & _)]; done.
Qed.

Lemma conditionalSubmissions_no_path substitutions reqs protos lhs rhs path :
  AddRule lhs rhs path ∈ conditionalSubmissions substitutions reqs protos → path = None.
Proof.
  revert protos. induction reqs as [|req rest IH]; intros protos; simpl.
  - by intros ?%elem_of_nil.
  - rewrite elem_of_app, elem_of_cons. intros [Hin|[Heq|Hin]].
    + by apply registration_no_AddRule in Hin.
    + unfold ruleOf in Heq. by inversion Heq.
    + by eapply IH.
Qed.

Lemma conditionalSubmissions_complete substitutions reqs protos req :
  req ∈ reqs → ruleOf substitutions req ∈ conditionalSubmissions substitutions reqs protos.
Proof.
  revert protos. induction reqs as [|r rest IH]; intros protos; simpl.
  - by intros ?%elem_of_nil.
  - rewrite elem_of_cons, elem_of_app, elem_of_cons. intros [->|Hin]; [by auto|].
    right. right. by apply IH.
Qed.

End Inferencer.

(** ** Derivation paths *)

Lemma getRule_inv id (m : PropertyMap) r m' :
  getRule id m = Ok r m' → m' = m ∧ Rules (System m) !! id = Some r.
Proof. unfold getRule. intros E. by invert_run. Qed.

(** Every run of [recordConcreteConformanceRule] that returns has submitted
    one rule, whose path is the inverse of a path that starts with the
    conformance rule and the concrete-type rule and ends in a relation. *)
Lemma recordConcreteConformanceRule_inv c p kind ccs (m m' : PropertyMap) :
  recordConcreteConformanceRule c p kind ccs m = Ok () m' →
  ∃ lhs rhs a b pre rel rels,
    m' = withSubmitted
           (Submitted (System m)
            ++ [AddRule lhs rhs
                  (Some (invert ([forRewriteRule a 0 p true; forRewriteRule b 1 c true]
                                 ++ pre ++ [rel])))])
           (withRelations rels m).
Proof.
  unfold recordConcreteConformanceRule, recordConcreteConformanceRelation, addRule.
  intros E.
  apply bind_inv in E as (rc & m1 & [-> Hc]%getRule_inv & E).
  apply bind_inv in E as (rp & m1 & [-> Hp]%getRule_inv & E).
  invert_run.
  - destruct (negb (bool_decide (_ = []))).
    + by eexists _, _, _, _, [_], _, _.
    + by eexists _, _, _, _, [], _, _.
  - by eexists _, _, _, _, [], _, _.
Qed.

Section Paths.
Context {env : Collaborators}.

(** C4, as the code has it.  The rule that merging submits and the rule
    submitted for a member type each carry a path that is not empty; the
    rules submitted for conditional requirements carry no path at all. *)
Theorem derivation_paths :
  (∀ c p kind ccs (m m' : PropertyMap),
     recordConcreteConformanceRule c p kind ccs m = Ok () m' →
     ∃ lhs rhs path,
       path ≠ []
       ∧ Submitted (System m') = Submitted (System m) ++ [AddRule lhs rhs (Some path)])
  ∧ (∀ key kind ccs concrete assocType (m m' : PropertyMap),
       concretizeTypeWitnessInConformance key kind ccs concrete assocType m = Ok () m' →
       ∃ lhs rhs path,
         path ≠ []
         ∧ Submitted (System m') = Submitted (System m) ++ [AddRule lhs rhs (Some path)])
  ∧ (∀ concrete substitutions (m : PropertyMap),
       ∃ m' added,
         inferConditionalRequirements concrete substitutions m = Ok () m'
         ∧ Submitted (System m') = Submitted (System m) ++ added
         ∧ (getConditionalRequirements concrete ≠ [] →
            ∀ req, req ∈ concat (desugarRequirement <$> getConditionalRequirements concrete) →
                   AddRule (getRuleForRequirement req substitutions).1
                           (getRuleForRequirement req substitutions).2 None ∈ added)
         ∧ ∀ lhs rhs path, AddRule lhs rhs path ∈ added → path = None).
Proof.
  split; [|split].
  - intros c p kind ccs m m' E.
    apply recordConcreteConformanceRule_inv in E
      as (lhs & rhs & a & b & pre & rel & rels & ->).
    eexists _, _, _. split; [|done].
    intros Hnil%(f_equal length). by rewrite length_invert in Hnil.
  - intros key kind ccs concrete assocType m m' E.
    apply concretize_inv in E
      as (cT & subs & proto & t & p' & m1 & -> & _ & (q & off & id & inv & ->)
          & (_ & _ & Hsub & _) & ->).
    eexists _, _, (q ++ [forRelation off id inv]). split; [by destruct q|].
    simpl. by rewrite Hsub.
  - intros concrete substitutions m. rewrite inferConditionalRequirements_Ok.
    case_bool_decide as Hreqs.
    + exists m, []. split; [done|]. split; [by rewrite app_nil_r|].
      split; [done|]. by intros ??? ?%elem_of_nil.
    + eexists _, _. split; [done|]. split; [done|]. split.
      * intros _. apply conditionalSubmissions_complete.
      * intros lhs rhs path. apply conditionalSubmissions_no_path.
Qed.

End Paths.

Lemma derivation_paths_witness :
  ∃ m' added,
    inferConditionalRequirements (env := Example.collaborators [Example.FooPIfQ])
      Example.FooPIfQ [Example.U] Example.start = Ok () m'
    ∧ Submitted (System m') = [] ++ added
    ∧ AddRule (Example.U ++ [SymProtocol Example.Q]) Example.U None ∈ added.
Proof.
  destruct (proj2 (proj2 (derivation_paths (env := Example.collaborators [Example.FooPIfQ])))
              Example.FooPIfQ [Example.U] Example.start)
    as (m' & added & E & S & Hall & _).
  exists m', added. split; [exact E|]. split; [exact S|].
  apply (Hall ltac:(discriminate) (ReqConformance (GenericTypeParamType 0 0) Example.Q)).
  vm_compute. left.
Defined.

(** C4, as the spec words it, fails: [Foo<Int, τ_0_0>] conforms to [P] on the
    condition that [τ_0_0 : Q]; the pass submits the rule [U.[Q] => U] for
    that requirement, and submits it without a path. *)
Lemma conditional_requirement_rule_has_no_path :
  ∃ m',
    concretizeNestedTypesFromConcreteParents (env := Example.collaborators [Example.FooPIfQ])
      Example.start = Ok () m'
    ∧ last (Submitted (System m'))
      = Some (AddRule (Example.U ++ [SymProtocol Example.Q]) Example.U None).
Proof. eexists. split; vm_compute; reflexivity. Qed.

(** ** At most once *)

(** A submission is the rule merging made for the pair [(c, p)]: its path
    ends by applying the concrete-type rule [c] and then the conformance
    rule [p]. *)
Definition mergesPair (c p : nat) (s : Submission) : bool :=
  match s with
  | AddRule _ _ (Some path) =>
      match reverse path with
      | forRewriteRule _ _ p' _ :: forRewriteRule _ _ c' _ :: _ =>
          bool_decide (c' = c ∧ p' = p)
      | _ => false
      end
  | _ => false
  end.

Definition timesMerged (c p : nat) (submitted : list Submission) : nat :=
  length (filter (λ s, mergesPair c p s = true) submitted).

Definition notMerged (s : Submission) : Prop := ∀ c p, mergesPair c p s = false.

Definition mergedFor (c p : nat) (s : Submission) : Prop :=
  ∀ c' p', mergesPair c' p' s = bool_decide (c' = c ∧ p' = p).

(** A rule submitted for a member type: its path ends in a relation step. *)
Definition witnessRule (s : Submission) : Prop :=
  ∃ lhs rhs q off id inv, s = AddRule lhs rhs (Some (q ++ [forRelation off id inv])).

Lemma witnessRule_notMerged s : witnessRule s → notMerged s.
Proof.
  intros (lhs & rhs & q & off & id & inv & ->) c p. simpl.
  by rewrite reverse_app.
Qed.

Lemma timesMerged_app c p xs ys :
  timesMerged c p (xs ++ ys) = timesMerged c p xs + timesMerged c p ys.
Proof. unfold timesMerged. by rewrite filter_app, length_app. Qed.

Lemma timesMerged_notMerged c p xs : Forall notMerged xs → timesMerged c p xs = 0.
Proof.
  unfold timesMerged. induction 1 as [|x xs Hx _ IH]; [done|].
  rewrite filter_cons. rewrite decide_False; [done|]. by rewrite (Hx c p).
Qed.

Lemma timesMerged_mergedFor c p c' p' s :
  mergedFor c p s →
  timesMerged c' p' [s] = if bool_decide (c' = c ∧ p' = p) then 1 else 0.
Proof.
  intros Hs. unfold timesMerged. rewrite filter_cons, filter_nil, (Hs c' p').
  by case_bool_decide; [rewrite decide_True | rewrite decide_False].
Qed.

(** What the rest of the argument looks at: the rules submitted and the
    cache of conformances. *)
Definition view (m : PropertyMap) : list Submission * gmap (nat * nat) ProtocolConformance :=
  (Submitted (System m), ConcreteConformances m).

(** One pass of the loop body for the pair [(c, p)], seen through [view]:
    either nothing is submitted and the cache stays, or the pair was not
    cached, is cached now, and the merged rule for it was submitted
    followed by rules that are not merged rules. *)
Definition pairStep (c p : nat)
    (v v' : list Submission * gmap (nat * nat) ProtocolConformance) : Prop :=
  v' = v
  ∨ (v.2 !! (c, p) = None
     ∧ ∃ concrete merged rest,
         v'.2 = <[(c, p) := concrete]> v.2
         ∧ v'.1 = v.1 ++ merged :: rest
         ∧ mergedFor c p merged
         ∧ Forall notMerged rest).

Definition anyStep (v v' : list Submission * gmap (nat * nat) ProtocolConformance) : Prop :=
  ∃ c p, pairStep c p v v'.

Lemma merged_rule_mergedFor c p lhs rhs a b pre rel :
  mergedFor c p
    (AddRule lhs rhs
       (Some (invert ([forRewriteRule a 0 p true; forRewriteRule b 1 c true] ++ pre ++ [rel])))).
Proof.
  intros c' p'. unfold mergesPair, invert. rewrite reverse_involutive. simpl.
  apply bool_decide_ext. split; intros [-> ->]; done.
Qed.

Section AtMostOnce.
Context {env : Collaborators}.

Lemma forEach_concretize_view key kind ccs concrete assocs (m m' : PropertyMap) :
  forEach (concretizeTypeWitnessInConformance key kind ccs concrete) assocs m = Ok () m' →
  ∃ added,
    Submitted (System m') = Submitted (System m) ++ added
    ∧ ConcreteConformances m' = ConcreteConformances m
    ∧ Protos (System m') = Protos (System m)
    ∧ Forall witnessRule added.
Proof.
  revert m. induction assocs as [|a assocs IH]; intros m E; simpl in E.
  - invert_run. exists []. by rewrite app_nil_r.
  - apply bind_inv in E as ([] & m1 & E1 & E).
    apply concretize_inv in E1
      as (cT & subs & proto & t & p' & m2 & -> & _ & Hp' & (_ & Hpr & Hsub & _ & Hcache) & ->).
    destruct (IH _ E) as (added & HS & HC & HP & Hall).
    exists (AddRule t (subjectOf key (SymConcreteConformance cT subs proto) proto a) (Some p')
            :: added).
    simpl in *. rewrite HS, HC, HP, Hsub, Hcache, Hpr, <- app_assoc.
    split; [done|]. split; [done|]. split; [done|]. constructor; [|done].
    destruct Hp' as (q & off & id & inv & ->). by eexists _, _, _, _, _, _.
Qed.

Lemma conditionalSubmissions_notMerged substitutions reqs protos :
  Forall notMerged (conditionalSubmissions substitutions reqs protos).
Proof.
  revert protos. induction reqs as [|req rest IH]; intros protos; simpl; [done|].
  rewrite Forall_app. split; [|constructor; [done | apply IH]].
  unfold registration. destruct req; try done. case_bool_decide; [done|]. simpl.
  rewrite Forall_app, !Forall_fmap. split; by apply Forall_true.
Qed.

(** The rules submitted for conditional requirements on a pass of the loop
    body: none unless the key is a top-level parameter. *)
Definition conditionalRules (key : Term) (concrete : ProtocolConformance)
    (substitutions : list Term) (protos : list ProtocolDecl) : list Submission :=
  if bool_decide (getRootProtocol key = None) then
    if bool_decide (getConditionalRequirements concrete = []) then []
    else conditionalSubmissions substitutions
           (concat (desugarRequirement <$> getConditionalRequirements concrete)) protos
  else [].

(** Every pass of the loop body that returns, seen through what it
    submitted and cached. *)
Lemma concretizeForProtocol_inv key kind c concreteType substitutions conformances proto p
    (m m' : PropertyMap) :
  concretizeForProtocol key kind c concreteType substitutions conformances proto p m
    = Ok () m' →
  ((is_Some (ConcreteConformances m !! (c, p))
    ∨ lookupConformance concreteType proto = InvalidConformance)
   ∧ view m' = view m)
  ∨ (ConcreteConformances m !! (c, p) = None
     ∧ ∃ concrete merged witnessRules,
         lookupConformance concreteType proto = ConcreteConformance concrete
         ∧ ConcreteConformances m' = <[(c, p) := concrete]> (ConcreteConformances m)
         ∧ Submitted (System m')
           = Submitted (System m) ++ merged :: witnessRules
               ++ conditionalRules key concrete substitutions (Protos (System m))
         ∧ mergedFor c p merged
         ∧ Forall witnessRule witnessRules).
Proof.
  unfold concretizeForProtocol. intros E.
  rewrite (bind_Ok getMap _ m m m) in E by done. rename m into m1.
  destruct (ConcreteConformances m1 !! (c, p)) as [found|] eqn:Hcache.
  { left. split; [by eauto|]. unfold push_back in E. by invert_run. }
  destruct (lookupConformance concreteType proto) as [| |concrete] eqn:Hlookup.
  - left. split; [by auto|].
    unfold getRule, markConflicting in E. by invert_run.
  - done.
  - right. split; [done|]. exists concrete.
    unfold insertConformance in E. rewrite (bind_assoc getMap) in E.
    rewrite (bind_Ok getMap _ m1 m1 m1) in E by done. rewrite Hcache in E.
    unfold push_back in E. invert_run.
    all: repeat match goal with u : () |- _ => destruct u end.
    all: match goal with
    | H : recordConcreteConformanceRule _ _ _ _ _ = Ok _ _ |- _ =>
        apply recordConcreteConformanceRule_inv in H
          as (lhs & rhs & a & b & pre & rel & rels & Hm2)
    end.
    all: match goal with
    | H : forEach _ _ _ = Ok _ _ |- _ =>
        apply forEach_concretize_view in H as (added & HS & HC & HP & Hall)
    end.
    all: rewrite Hm2 in HS, HC, HP; simpl in HS, HC, HP; unfold conditionalRules.
    all: eexists _, added; (split; [done|]).
    all: match goal with H : bool_decide _ = _ |- _ => rewrite H end.
    + rewrite inferConditionalRequirements_Ok in E.
      destruct (bool_decide (getConditionalRequirements concrete = []));
        inversion E; subst m'; clear E; simpl.
      * rewrite HS, HC, app_nil_r, <- app_assoc.
        split; [done|]. split; [done|]. split; [apply merged_rule_mergedFor | done].
      * rewrite HS, HC, HP, <- !app_assoc.
        split; [done|]. split; [done|]. split; [apply merged_rule_mergedFor | done].
    + rewrite HS, HC, app_nil_r, <- app_assoc.
      split; [done|]. split; [done|]. split; [apply merged_rule_mergedFor | done].
Qed.

Lemma concretizeForProtocol_step key kind c concreteType substitutions conformances proto p
    (m m' : PropertyMap) :
  concretizeForProtocol key kind c concreteType substitutions conformances proto p m
    = Ok () m' →
  pairStep c p (view m) (view m').
Proof.
  intros [[_ Hview]|(Hcache & concrete & merged & ws & _ & HC & HS & Hm & Hws)]
    %concretizeForProtocol_inv.
  - by left.
  - right. split; [done|]. exists concrete, merged, (ws ++ conditionalRules key concrete substitutions (Protos (System m))).
    split; [done|]. split; [done|]. split; [done|].
    apply Forall_app. split.
    + eapply Forall_impl; [exact Hws | apply witnessRule_notMerged].
    + unfold conditionalRules. repeat case_bool_decide; try done.
      apply conditionalSubmissions_notMerged.
Qed.

(** *** The pass as a sequence of steps *)

Definition reaches {A} (c : M A) : Prop :=
  ∀ m a m', c m = Ok a m' → rtc anyStep (view m) (view m').

Lemma reaches_bind {A B} (c : M A) (f : A → M B) :
  reaches c → (∀ a, reaches (f a)) → reaches (c ≫= f).
Proof.
  intros Hc Hf m b m' (a & m1 & E1 & E2)%bind_inv.
  etrans; [by eapply Hc | by eapply Hf].
Qed.

Lemma reaches_same {A} (c : M A) :
  (∀ m a m', c m = Ok a m' → view m' = view m) → reaches c.
Proof. intros Hc m a m' E. by rewrite (Hc _ _ _ E). Qed.

Lemma reaches_forEach {A} (body : A → M unit) xs :
  (∀ x, reaches (body x)) → reaches (forEach body xs).
Proof.
  intros Hbody. induction xs as [|x xs IH]; simpl.
  - apply reaches_same. intros m a m' E. by invert_run.
  - by apply reaches_bind.
Qed.

Lemma reaches_concretizeNestedTypesFromConcreteParent
    key kind c concreteType substitutions conformsToRules conformsTo conformances :
  reaches (concretizeNestedTypesFromConcreteParent key kind c concreteType substitutions
             conformsToRules conformsTo conformances).
Proof.
  unfold concretizeNestedTypesFromConcreteParent.
  apply reaches_bind; [apply reaches_same; intros ??? E; by invert_run|]. intros _.
  apply reaches_bind; [apply reaches_same; intros ??? E; by invert_run|]. intros _.
  apply reaches_forEach. intros [proto id] m [] m' E.
  apply rtc_once. exists c, id. by eapply concretizeForProtocol_step.
Qed.

Lemma reaches_concretizeEntry i : reaches (concretizeEntry i).
Proof.
  unfold concretizeEntry.
  apply reaches_bind; [apply reaches_same; intros ??? E; by invert_run|]. intros m0.
  apply reaches_bind; [apply reaches_same; intros ??? E; by invert_run|]. intros props.
  case_bool_decide; [apply reaches_same; intros ??? E; by invert_run|].
  apply reaches_bind; [|intros _].
  - destruct (PropertyBag.isConcreteType props);
      [|apply reaches_same; intros ??? E; by invert_run].
    do 4 (apply reaches_bind;
          [apply reaches_same; intros ??? E; by invert_run | intros ?]).
    apply reaches_concretizeNestedTypesFromConcreteParent.
  - destruct (PropertyBag.hasSuperclassBound props);
      [|apply reaches_same; intros ??? E; by invert_run].
    do 4 (apply reaches_bind;
          [apply reaches_same; intros ??? E; by invert_run | intros ?]).
    apply reaches_concretizeNestedTypesFromConcreteParent.
Qed.

Lemma reaches_concretizeNestedTypesFromConcreteParents :
  reaches concretizeNestedTypesFromConcreteParents.
Proof.
  unfold concretizeNestedTypesFromConcreteParents.
  apply reaches_bind; [apply reaches_same; intros ??? E; by invert_run|]. intros m0.
  apply reaches_forEach. apply reaches_concretizeEntry.
Qed.

Lemma reaches_completionRounds rounds : reaches (completionRounds rounds).
Proof.
  unfold completionRounds. apply reaches_forEach. intros [rules entries].
  apply reaches_bind; [|intros _; apply reaches_concretizeNestedTypesFromConcreteParents].
  apply reaches_same. intros m a m' E. unfold rebuild in E. by invert_run.
Qed.

End AtMostOnce.

(** *** What every sequence of steps keeps *)

Definition derivedOnce (v : list Submission * gmap (nat * nat) ProtocolConformance) : Prop :=
  ∀ c p, timesMerged c p v.1 ≤ (if v.2 !! (c, p) is Some _ then 1 else 0).

Lemma derivedOnce_step v v' : derivedOnce v → anyStep v v' → derivedOnce v'.
Proof.
  intros Hv (c & p & [->|(Hmiss & concrete & merged & rest & Hc & Hs & Hm & Hrest)]);
    [done|].
  intros c' p'. rewrite Hs, timesMerged_app.
  change (merged :: rest) with ([merged] ++ rest).
  rewrite timesMerged_app, (timesMerged_mergedFor c p c' p' merged Hm),
    (timesMerged_notMerged _ _ _ Hrest), Hc.
  specialize (Hv c' p'). case_bool_decide as Heq.
  - destruct Heq as [-> ->]. rewrite Hmiss in Hv. rewrite lookup_insert_eq. lia.
  - rewrite lookup_insert_ne by (intros [= -> ->]; auto). lia.
Qed.

Lemma derivedOnce_rtc v v' : derivedOnce v → rtc anyStep v v' → derivedOnce v'.
Proof. intros Hv Hsteps. induction Hsteps; eauto using derivedOnce_step. Qed.

Lemma cached_step v v' pair h : v.2 !! pair = Some h → anyStep v v' → v'.2 !! pair = Some h.
Proof.
  intros Hv (c & p & [->|(Hmiss & concrete & merged & rest & Hc & _)]); [done|].
  rewrite Hc, lookup_insert_ne; [done|]. intros <-. congruence.
Qed.

Lemma cached_rtc v v' pair h : v.2 !! pair = Some h → rtc anyStep v v' → v'.2 !! pair = Some h.
Proof. intros Hv Hsteps. induction Hsteps; eauto using cached_step. Qed.

(** *** The insertion assertion *)

Definition insertionHolds {A} (c : M A) : Prop := ∀ m, c m ≠ Failed AlreadyInserted.

Lemma insertionHolds_bind {A B} (c : M A) (f : A → M B) :
  insertionHolds c → (∀ a, insertionHolds (f a)) → insertionHolds (c ≫= f).
Proof.
  intros Hc Hf m. unfold mbind, M_bind. destruct (c m) eqn:E; [apply Hf|].
  intros [= ->]. by apply (Hc m).
Qed.

Lemma insertionHolds_forEach {A} (body : A → M unit) xs :
  (∀ x, insertionHolds (body x)) → insertionHolds (forEach body xs).
Proof.
  intros Hbody. induction xs as [|x xs IH]; simpl; [done|].
  by apply insertionHolds_bind.
Qed.

Lemma insertionHolds_total {A} (c : M A) :
  (∀ m, ∃ a m', c m = Ok a m') → insertionHolds c.
Proof. intros Hc m. by destruct (Hc m) as (a & m' & ->). Qed.

Lemma insertionHolds_assert b e : e ≠ AlreadyInserted → insertionHolds (assert b e).
Proof. intros He m. destruct b; simpl; [done|]. unfold fail. congruence. Qed.

Lemma insertionHolds_deref {A} (o : option A) e :
  e ≠ AlreadyInserted → insertionHolds (deref o e).
Proof. intros He m. destruct o; simpl; [done|]. unfold fail. congruence. Qed.

Lemma insertionHolds_fail {A} e : e ≠ AlreadyInserted → insertionHolds (fail (A := A) e).
Proof. intros He m. unfold fail. congruence. Qed.

Create HintDb insertion.

Ltac insertion_holds :=
  repeat first
    [ solve [auto 1 with insertion nocore]
    | apply insertionHolds_bind; [|intros ?]
    | apply insertionHolds_forEach; intros ?
    | apply insertionHolds_assert; discriminate
    | apply insertionHolds_deref; discriminate
    | apply insertionHolds_fail; discriminate
    | apply insertionHolds_total; intros ?; by eexists _, _
    | match goal with
      | |- insertionHolds (if ?b then _ else _) => destruct b
      | |- insertionHolds (match ?o with _ => _ end) => destruct o
      | |- insertionHolds (let '(_, _) := ?x in _) => destruct x
      end ].

Section Insertion.
Context {env : Collaborators}.

Lemma insertionHolds_recordRelation lhs rhs : insertionHolds (recordRelation lhs rhs).
Proof. apply insertionHolds_total. intros m. rewrite recordRelation_Ok. by eexists _, _. Qed.

Lemma insertionHolds_getRule id : insertionHolds (getRule id).
Proof. unfold getRule. insertion_holds. Qed.

Lemma insertionHolds_markConflicting id : insertionHolds (markConflicting id).
Proof. unfold markConflicting. insertion_holds. Qed.

Lemma insertionHolds_submit e : insertionHolds (submit e).
Proof. apply insertionHolds_total. intros m. rewrite submit_Ok. by eexists _, _. Qed.

Hint Resolve insertionHolds_recordRelation insertionHolds_getRule
  insertionHolds_markConflicting insertionHolds_submit : insertion.

Lemma insertionHolds_compute key kind concreteType w subject substitutions path :
  insertionHolds (computeConstraintTermForTypeWitness key kind concreteType w subject
                    substitutions path).
Proof.
  unfold computeConstraintTermForTypeWitness, recordConcreteTypeWitnessRelation,
    recordSameTypeWitnessRelation.
  insertion_holds.
Qed.
Hint Resolve insertionHolds_compute : insertion.

Lemma insertionHolds_concretize key kind ccs concrete assocType :
  insertionHolds (concretizeTypeWitnessInConformance key kind ccs concrete assocType).
Proof.
  unfold concretizeTypeWitnessInConformance, addRule.
  insertion_holds.
Qed.

Lemma insertionHolds_merge c p kind ccs :
  insertionHolds (recordConcreteConformanceRule c p kind ccs).
Proof.
  unfold recordConcreteConformanceRule, recordConcreteConformanceRelation, addRule.
  insertion_holds.
Qed.

Lemma insertionHolds_infer concrete substitutions :
  insertionHolds (inferConditionalRequirements concrete substitutions).
Proof.
  apply insertionHolds_total. intros m. rewrite inferConditionalRequirements_Ok.
  case_bool_decide; by eexists _, _.
Qed.

Hint Resolve insertionHolds_concretize insertionHolds_merge insertionHolds_infer : insertion.

Lemma insertionHolds_push_back r c : insertionHolds (push_back r c).
Proof. apply insertionHolds_total. intros m. by eexists _, _. Qed.
Hint Resolve insertionHolds_push_back : insertion.

Ltac insertion_holds_at :=
  match goal with
  | |- ?c ?m ≠ Failed AlreadyInserted =>
      let Hc := fresh in enough (insertionHolds c) as Hc by apply Hc
  end.

(** The loop body inserts a pair only after [find] has missed it, with the
    map untouched in between, so [inserted.second] is true. *)
Lemma insertionHolds_concretizeForProtocol
    key kind c concreteType substitutions conformances proto p :
  insertionHolds (concretizeForProtocol key kind c concreteType substitutions
                    conformances proto p).
Proof.
  intros m. unfold concretizeForProtocol.
  rewrite (bind_Ok getMap _ m m m) by done.
  destruct (ConcreteConformances m !! (c, p)) as [found|] eqn:Hcache; [done|].
  destruct (lookupConformance concreteType proto) as [| |concrete].
  - insertion_holds_at. insertion_holds.
  - unfold fail. congruence.
  - unfold insertConformance. rewrite (bind_assoc getMap).
    rewrite (bind_Ok getMap _ m m m) by done. rewrite Hcache.
    mnorm. erewrite (bind_Ok (putConcreteConformances _)) by reflexivity.
    mnorm. simpl. mnorm.
    insertion_holds_at. insertion_holds.
Qed.
Hint Resolve insertionHolds_concretizeForProtocol : insertion.

Lemma insertionHolds_parent
    key kind c concreteType substitutions conformsToRules conformsTo conformances :
  insertionHolds (concretizeNestedTypesFromConcreteParent key kind c concreteType
                    substitutions conformsToRules conformsTo conformances).
Proof. unfold concretizeNestedTypesFromConcreteParent. insertion_holds. Qed.
Hint Resolve insertionHolds_parent : insertion.

Lemma insertionHolds_concretizeEntry i : insertionHolds (concretizeEntry i).
Proof. unfold concretizeEntry. insertion_holds. Qed.
Hint Resolve insertionHolds_concretizeEntry : insertion.

Lemma insertionHolds_pass : insertionHolds concretizeNestedTypesFromConcreteParents.
Proof. unfold concretizeNestedTypesFromConcreteParents. insertion_holds. Qed.
Hint Resolve insertionHolds_pass : insertion.

Lemma insertionHolds_completionRounds rounds : insertionHolds (completionRounds rounds).
Proof.
  unfold completionRounds. apply insertionHolds_forEach. intros [rules entries].
  apply insertionHolds_bind; [|intros ?; apply insertionHolds_pass].
  apply insertionHolds_total. intros m. by eexists _, _.
Qed.

End Insertion.

Definition refIndex (r : ConformancesRef) : nat :=
  match r with ConcreteConformancesOf i | SuperclassConformancesOf i => i end.

Lemma readConformances_push_back r found (m : PropertyMap) :
  is_Some (Entries m !! refIndex r) →
  readConformances r (mkMap (System m)
                        match r with
                        | ConcreteConformancesOf i =>
                            alter (λ b, PropertyBag.setConcreteConformances
                                          (PropertyBag.ConcreteConformances b ++ [found]) b)
                                  i (Entries m)
                        | SuperclassConformancesOf i =>
                            alter (λ b, PropertyBag.setSuperclassConformances
                                          (PropertyBag.SuperclassConformances b ++ [found]) b)
                                  i (Entries m)
                        end
                        (ConcreteConformances m))
  = readConformances r m ++ [found].
Proof.
  intros [b Hb]. destruct r as [i|i]; simpl in *;
    by rewrite list_lookup_alter_eq, Hb.
Qed.

Section Once.
Context {env : Collaborators}.

(** C5.  The insertion assertion never fires, in any number of rounds.  On a
    hit in the cache the loop body does nothing but append the cached
    conformance to the bag's vector.  A pass of the loop body that submits
    anything found the pair missing from the cache and leaves it cached; a
    cached pair stays cached through all later rounds; and so, however many
    rounds run, the rule merging makes for a pair is submitted at most
    once, together with the member-type rules that follow it. *)
Theorem derived_at_most_once :
  (∀ rounds (m : PropertyMap), completionRounds rounds m ≠ Failed AlreadyInserted)
  ∧ (∀ key kind c concreteType substitutions conformances proto p (m : PropertyMap) found,
       ConcreteConformances m !! (c, p) = Some found →
       ∃ m', concretizeForProtocol key kind c concreteType substitutions
               conformances proto p m = Ok () m'
         ∧ System m' = System m
         ∧ ConcreteConformances m' = ConcreteConformances m
         ∧ (is_Some (Entries m !! refIndex conformances) →
            readConformances conformances m' = readConformances conformances m ++ [found]))
  ∧ (∀ key kind c concreteType substitutions conformances proto p (m m' : PropertyMap),
       concretizeForProtocol key kind c concreteType substitutions
         conformances proto p m = Ok () m' →
       Submitted (System m') ≠ Submitted (System m) →
       ConcreteConformances m !! (c, p) = None
       ∧ is_Some (ConcreteConformances m' !! (c, p)))
  ∧ (∀ rounds (m m' : PropertyMap),
       completionRounds rounds m = Ok () m' →
       (∀ pair found, ConcreteConformances m !! pair = Some found →
                      ConcreteConformances m' !! pair = Some found)
       ∧ (derivedOnce (view m) → derivedOnce (view m'))
       ∧ (Submitted (System m) = [] →
          ∀ c p, timesMerged c p (Submitted (System m')) ≤ 1)).
Proof.
  split; [|split; [|split]].
  - intros rounds. apply insertionHolds_completionRounds.
  - intros key kind c concreteType substitutions conformances proto p m found Hhit.
    eexists. split.
    { unfold concretizeForProtocol. rewrite (bind_Ok getMap _ m m m) by done.
      rewrite Hhit. reflexivity. }
    simpl. split; [done|]. split; [done|]. apply readConformances_push_back.
  - intros key kind c concreteType substitutions conformances proto p m m' E Hnew.
    apply concretizeForProtocol_inv in E
      as [[_ Hview]|(Hmiss & concrete & merged & ws & _ & HC & _)].
    + by injection Hview as Hs _.
    + split; [done|]. rewrite HC, lookup_insert_eq. by eexists.
  - intros rounds m m' E. pose proof (reaches_completionRounds rounds m () m' E) as Hsteps.
    split; [|split].
    + intros pair found Hpair. by apply (cached_rtc (view m) (view m') pair found).
    + intros Hm. by apply (derivedOnce_rtc (view m) (view m')).
    + intros Hfresh c p.
      assert (Hstart : derivedOnce (view m)).
      { intros c' p'. simpl. rewrite Hfresh. unfold timesMerged. simpl. lia. }
      pose proof (derivedOnce_rtc _ _ Hstart Hsteps c p) as Hc. simpl in Hc.
      destruct (ConcreteConformances m' !! (c, p)); lia.
Qed.

End Once.

Lemma derived_at_most_once_witness :
  ∃ m',
    completionRounds (env := Example.collaborators [Example.FooP])
      [(Example.rules, [Example.bagT]); (Example.rules, [Example.bagT])] Example.start
      = Ok () m'
    ∧ length (Submitted (System m')) = 3
    ∧ timesMerged 1 0 (Submitted (System m')) ≤ 1.
Proof.
  eexists. split; [vm_compute; reflexivity|]. split; [reflexivity|].
  refine (proj2 (proj2 (proj2 (proj2 (proj2
            (derived_at_most_once (env := Example.collaborators [Example.FooP]))))
            [(Example.rules, [Example.bagT]); (Example.rules, [Example.bagT])]
            Example.start _ _)) eq_refl 1 0).
  vm_compute. reflexivity.
Defined.

(** ** When and how conditional requirements are inferred *)

Section Conditional.
Context {env : Collaborators}.

(** C8.  In the loop body the inferencer contributes nothing when the key
    is rooted in a protocol; only for a key that is a top-level parameter
    are its rules submitted, after the merged rule and the member-type
    rules.  The inferencer returns at once, leaving the state as it is, when
    the conformance has no conditional requirements; otherwise it goes
    through the desugared requirements in order.  For a conformance
    requirement to a protocol the system does not know, the permanent rules
    and then the requirement rules that the rule builder collected for the
    protocol are submitted before the rule of the requirement itself, which
    [getRuleForRequirement] makes from the requirement and the
    substitutions and which is submitted without a path; for any other
    requirement only that rule is submitted. *)
Theorem conditional_requirement_inference :
  (∀ key kind c concreteType substitutions conformances proto p (m m' : PropertyMap) concrete,
     ConcreteConformances m !! (c, p) = None →
     lookupConformance concreteType proto = ConcreteConformance concrete →
     concretizeForProtocol key kind c concreteType substitutions conformances proto p m
       = Ok () m' →
     ∃ merged witnessRules,
       Forall witnessRule witnessRules
       ∧ (getRootProtocol key ≠ None →
          Submitted (System m') = Submitted (System m) ++ merged :: witnessRules)
       ∧ (getRootProtocol key = None →
          ∀ m0, Protos (System m0) = Protos (System m) →
            ∃ m0' inferred,
              inferConditionalRequirements concrete substitutions m0 = Ok () m0'
              ∧ Submitted (System m0') = Submitted (System m0) ++ inferred
              ∧ Submitted (System m')
                = Submitted (System m) ++ merged :: witnessRules ++ inferred))
  ∧ (∀ concrete substitutions (m : PropertyMap),
       getConditionalRequirements concrete = [] →
       inferConditionalRequirements concrete substitutions m = Ok () m)
  ∧ (∀ concrete substitutions (m : PropertyMap),
       getConditionalRequirements concrete ≠ [] →
       inferConditionalRequirements concrete substitutions m
       = forEach (addRuleForRequirement substitutions)
           (concat (desugarRequirement <$> getConditionalRequirements concrete)) m)
  ∧ (∀ substitutions req (m : PropertyMap),
       let rule := AddRule (getRuleForRequirement req substitutions).1
                           (getRuleForRequirement req substitutions).2 None in
       ∃ m', addRuleForRequirement substitutions req m = Ok () m'
         ∧ (∀ t proto, req = ReqConformance t proto → proto ∉ Protos (System m) →
              let builder := buildRulesForProtocol (Protos (System m)) proto in
              Protos (System m') = ProtocolMap builder
              ∧ Submitted (System m')
                = Submitted (System m)
                  ++ ((λ r, AddPermanentRule r.1 r.2) <$> PermanentRules builder)
                  ++ ((λ r, AddExplicitRule r.1 r.2) <$> RequirementRules builder)
                  ++ [rule])
         ∧ ((∀ t proto, req = ReqConformance t proto → proto ∈ Protos (System m)) →
              Protos (System m') = Protos (System m)
              ∧ Submitted (System m') = Submitted (System m) ++ [rule])).
Proof.
  split; [|split; [|split]].
  - intros key kind c concreteType substitutions conformances proto p m m' concrete
      Hmiss Hlookup E.
    apply concretizeForProtocol_inv in E
      as [[[[? Hhit]|Hinv] _]|(_ & concrete' & merged & ws & Hl & _ & HS & _ & Hws)];
      [congruence | congruence |].
    assert (concrete' = concrete) as -> by congruence.
    exists merged, ws. split; [done|]. unfold conditionalRules in HS. split.
    + intros Hroot. rewrite bool_decide_false in HS by done. by rewrite app_nil_r in HS.
    + intros Hroot m0 Hprotos. rewrite bool_decide_true in HS by done.
      rewrite inferConditionalRequirements_Ok.
      destruct (bool_decide (getConditionalRequirements concrete = [])).
      * exists m0, []. by rewrite app_nil_r.
      * eexists _, _. split; [done|]. simpl. split; [done|]. by rewrite Hprotos.
  - intros concrete substitutions m Hnone. unfold inferConditionalRequirements.
    by rewrite bool_decide_true.
  - intros concrete substitutions m Hsome. unfold inferConditionalRequirements.
    by rewrite bool_decide_false.
  - intros substitutions req m rule. eexists. split; [apply addRuleForRequirement_Ok|].
    simpl. fold (ruleOf substitutions req). split.
    + intros t proto -> Hunknown. simpl. rewrite bool_decide_false by done. simpl.
      split; [done|]. by rewrite <- !app_assoc.
    + intros Hknown. unfold registration. destruct req; try done.
      by rewrite bool_decide_true by eauto.
Qed.

End Conditional.

Lemma conditional_requirement_inference_witness :
  ∃ m',
    inferConditionalRequirements (env := Example.collaborators [Example.FooPIfQ])
      Example.FooPIfQ [Example.U] Example.start = Ok () m'
    ∧ Protos (System m') = [Example.P; Example.Q]
    ∧ Submitted (System m')
      = [ AddPermanentRule [SymProtocol Example.Q; SymProtocol Example.Q]
                           [SymProtocol Example.Q];
          AddExplicitRule [SymProtocol Example.Q; SymName "V"]
                          [SymAssociatedType Example.Q "V"];
          AddRule (Example.U ++ [SymProtocol Example.Q]) Example.U None ].
Proof.
  destruct (proj2 (proj2 (proj2
              (conditional_requirement_inference
                 (env := Example.collaborators [Example.FooPIfQ]))))
              [Example.U] (ReqConformance (GenericTypeParamType 0 0) Example.Q)
              Example.start)
    as (m' & E & Hunknown & _).
  destruct (Hunknown (GenericTypeParamType 0 0) Example.Q eq_refl) as [Hp Hs].
  { vm_compute. intros Hin. apply list_elem_of_singleton in Hin. discriminate Hin. }
  exists m'. split; [|split].
  - rewrite (proj1 (proj2 (proj2 (conditional_requirement_inference
                                    (env := Example.collaborators [Example.FooPIfQ])))))
      by discriminate.
    simpl. by rewrite (bind_Ok _ _ _ _ _ E).
  - exact Hp.
  - exact Hs.
Defined.

(** * Further properties of the pass *)

(** ** The general rule for a concrete witness *)

Section GeneralRule.
Context {env : Collaborators}.

(** The comparison [typeWitnessSymbol.getConcreteType() == concreteType &&
    typeWitnessSymbol.getSubstitutions() == substitutions] after
    [requirementKind == RequirementKind::SameType] comes out false. *)
Definition differsFromParent (kind : RequirementKind) (symbol : Symbol)
    (concreteType : CanType) (substitutions : list Term) : Prop :=
  kind ≠ SameType
  ∨ (∃ c, getConcreteType symbol = Some c ∧ c ≠ concreteType)
  ∨ (getConcreteType symbol = Some concreteType
     ∧ ∃ l, getSubstitutions symbol = Some l ∧ l ≠ substitutions).

(** When no prefix ties a concrete witness off and the simplified witness
    symbol is not the parent type under a same-type requirement, the rule
    submitted is [subject.[concrete: w'] => subject], where [w'] is the
    simplified symbol.  Its path is the simplification path followed by the
    relation [[S].[M].[concrete: w] => [S].[M]], which is recorded with the
    symbol as it was before simplification.  In particular a superclass
    requirement never gives the self-referential rule. *)
Theorem general_concrete_rule key kind concreteType substitutions proto concrete assocType w
    (m : PropertyMap) d sp :
  getTypeWitness concrete assocType = Some w →
  isTypeParameter w = false →
  (if hasTypeParameter w then None
   else findPrefixWithConcreteType (Entries m) key w (length key)) = None →
  let S := SymConcreteConformance concreteType substitutions proto in
  let M := SymAssociatedType proto (assocName assocType) in
  let tws := witnessSymbol w substitutions in
  let m1 := withRelations (recorded [S; M; tws] [S; M] (Relations (System m))) m in
  simplifySubstitutions key tws (Entries m1) (System m1) = (d, sp) →
  (∀ d', d = Some d' → diffLHS d' = tws) →
  differsFromParent kind (simplifiedSymbol d tws) concreteType substitutions →
  ∃ m' id,
    concretizeTypeWitnessInConformance key kind S concrete assocType m = Ok () m'
    ∧ Relations (System m') !! id = Some ([S; M; tws], [S; M])
    ∧ Submitted (System m')
      = Submitted (System m)
        ++ [AddRule (key ++ [S; M; simplifiedSymbol d tws]) (key ++ [S; M])
              (Some (simplifiedPath d sp ++ [forRelation (length key) id false]))].
Proof.
  intros Hw Habs Hnone S M tws m1 Hsimp Hcontract Hdiff.
  assert (Hsubj : key ++ [S; M] = subjectOf key S proto assocType).
  { unfold subjectOf. by rewrite <- app_assoc. }
  assert (Hlhs : key ++ [S; M; simplifiedSymbol d tws]
                 = (key ++ [S; M]) ++ [simplifiedSymbol d tws]).
  { by rewrite <- app_assoc. }
  rewrite Hlhs. eexists _, _. split.
  { apply concretize_from_compute. unfold witnessOrError. rewrite Hw.
    fold S. rewrite <- Hsubj.
    erewrite compute_no_prefix by done. fold tws.
    destruct Hdiff as [Hkind|[(c & Hc & Hne)|(Hc & l & Hl & Hne)]].
    - rewrite bool_decide_false by done. mnorm. reflexivity.
    - destruct (bool_decide (kind = SameType)); [|mnorm; reflexivity].
      rewrite Hc. simpl. mnorm. rewrite bool_decide_false by done. mnorm. reflexivity.
    - destruct (bool_decide (kind = SameType)); [|mnorm; reflexivity].
      rewrite Hc. simpl. mnorm. rewrite bool_decide_true by done.
      rewrite Hl. simpl. mnorm. rewrite bool_decide_false by done. reflexivity. }
  split; [apply recorded_lookup | by rewrite Hsubj].
Qed.

End GeneralRule.

Lemma general_concrete_rule_witness :
  ∃ m' id,
    concretizeTypeWitnessInConformance (env := Example.collaborators [Example.FooP])
      Example.T SameType Example.FooConformance Example.FooP (mkAssoc "A") Example.start
      = Ok () m'
    ∧ Relations (System m') !! id
      = Some ([Example.FooConformance; SymAssociatedType Example.P "A";
               SymConcreteType Example.Int []],
              [Example.FooConformance; SymAssociatedType Example.P "A"])
    ∧ Submitted (System m')
      = [] ++ [AddRule (Example.T ++ [Example.FooConformance; SymAssociatedType Example.P "A";
                                      SymConcreteType Example.Int []])
                 (Example.T ++ [Example.FooConformance; SymAssociatedType Example.P "A"])
                 (Some ([] ++ [forRelation 1 id false]))].
Proof.
  refine (general_concrete_rule (env := Example.collaborators [Example.FooP])
            Example.T SameType Example.Foo [Example.U] Example.P Example.FooP (mkAssoc "A")
            Example.Int Example.start None [] eq_refl eq_refl eq_refl eq_refl _ _).
  - intros d' Hd'. discriminate Hd'.
  - right. left. exists Example.Int. split; [reflexivity | discriminate].
Defined.

(** ** One rule for every associated type *)

Section MemberTypes.
Context {env : Collaborators}.

(** The loop over the associated types of the protocol returns (as long as
    [simplifySubstitutions] keeps to what is asserted of it) and submits
    exactly one rule for each associated type, in the order of their
    declaration: the rule of an associated type has the subject term
    [T.S.[P:X]] of that type on the right and a path that is not empty.
    The loop leaves the rules, the bags and the cache as they were. *)
Theorem one_rule_per_associated_type key kind concreteType substitutions proto concrete
    (assocTypes : list AssociatedTypeDecl) (m : PropertyMap) :
  simplifyContract →
  let S := SymConcreteConformance concreteType substitutions proto in
  ∃ m' added,
    forEach (concretizeTypeWitnessInConformance key kind S concrete) assocTypes m = Ok () m'
    ∧ Submitted (System m') = Submitted (System m) ++ added
    ∧ Forall2 (λ assocType s,
                 ∃ lhs path,
                   path ≠ []
                   ∧ s = AddRule lhs
                           (key ++ [S; SymAssociatedType proto (assocName assocType)])
                           (Some path))
              assocTypes added
    ∧ Rules (System m') = Rules (System m)
    ∧ Entries m' = Entries m
    ∧ ConcreteConformances m' = ConcreteConformances m.
Proof.
  intros Hcontract S. revert m.
  induction assocTypes as [|a rest IH]; intros m.
  { exists m, []. rewrite app_nil_r. by repeat split. }
  destruct (compute_total key kind concreteType (witnessOrError concrete a concreteType) S
              (SymAssociatedType proto (assocName a)) substitutions [] m)
    as ([lhs path] & m1 & E); [done | by eexists .. |].
  assert (Hsubj : key ++ [S; SymAssociatedType proto (assocName a)]
                  = subjectOf key S proto a).
  { unfold subjectOf. by rewrite <- app_assoc. }
  rewrite Hsubj in E.
  pose proof (concretize_from_compute _ _ _ _ _ _ _ _ _ _ _ E) as Ebody.
  destruct (compute_inv _ _ _ _ _ _ _ _ _ _ _ E)
    as [(q & off & id & inv & Hpath) (Hr & _ & Hsub & He & Hc)].
  set (m2 := withSubmitted _ m1) in Ebody.
  destruct (IH m2) as (m' & added & Erest & HS & Hall & HR & HE & HC).
  exists m', (AddRule lhs (subjectOf key S proto a) (Some path) :: added).
  split; [|split; [|split; [|split; [|split]]]].
  - rewrite forEach_cons. by erewrite bind_Ok by exact Ebody.
  - rewrite HS. simpl. by rewrite Hsub, <- app_assoc.
  - constructor; [|done]. exists lhs, path. rewrite Hsubj. split; [|done].
    rewrite Hpath. by destruct q.
  - by rewrite HR.
  - by rewrite HE.
  - by rewrite HC.
Qed.

End MemberTypes.

Lemma one_rule_per_associated_type_witness :
  ∃ m' added,
    forEach (concretizeTypeWitnessInConformance (env := Example.collaborators [Example.FooP])
               Example.T SameType Example.FooConformance Example.FooP)
      (AssociatedTypeMembers Example.P) Example.start = Ok () m'
    ∧ Submitted (System m') = [] ++ added
    ∧ length added = 2.
Proof.
  destruct (one_rule_per_associated_type (env := Example.collaborators [Example.FooP])
              Example.T SameType Example.Foo [Example.U] Example.P Example.FooP
              (AssociatedTypeMembers Example.P) Example.start (fixture_simplifyContract _))
    as (m' & added & E & S & Hall & _).
  exists m', added. split; [exact E|]. split; [exact S|].
  by rewrite <- (Forall2_length _ _ _ Hall).
Defined.

(** ** What a run of the pass leaves alone *)

(** A computation keeps a relation between the state it starts from and
    the state it returns. *)
Definition keeps (R : relation PropertyMap) {A} (c : M A) : Prop :=
  ∀ m a m', c m = Ok a m' → R m m'.

Lemma keeps_bind (R : relation PropertyMap) `{!PreOrder R} {A B} (c : M A) (f : A → M B) :
  keeps R c → (∀ a, keeps R (f a)) → keeps R (c ≫= f).
Proof.
  intros Hc Hf m b m' (a & m1 & E1 & E2)%bind_inv.
  etrans; [by eapply Hc | by eapply Hf].
Qed.

Lemma keeps_same (R : relation PropertyMap) `{!PreOrder R} {A} (c : M A) :
  (∀ m a m', c m = Ok a m' → m' = m) → keeps R c.
Proof. intros Hc m a m' E. by rewrite (Hc _ _ _ E). Qed.

Lemma keeps_forEach (R : relation PropertyMap) `{!PreOrder R} {A} (body : A → M unit) xs :
  (∀ x, keeps R (body x)) → keeps R (forEach body xs).
Proof.
  intros Hbody. induction xs as [|x xs IH]; simpl.
  - apply keeps_same; [done|]. intros m a m' E. by invert_run.
  - by apply keeps_bind.
Qed.

(** [keeps_steps leaf] goes through binds, loops and branches and leaves to
    [leaf] the computations that write to the state. *)
Ltac keeps_pure := apply keeps_same; [apply _ | intros ??? ?; by invert_run].

Ltac keeps_steps leaf :=
  repeat first
    [ solve [leaf]
    | apply keeps_bind; [apply _ | | intros ?]
    | apply keeps_forEach; [apply _ | intros ?]
    | match goal with
      | |- keeps _ (if ?b then _ else _) => destruct b
      | |- keeps _ (match ?o with _ => _ end) => destruct o
      | |- keeps _ (let '(_, _) := ?x in _) => destruct x
      end
    | solve [keeps_pure] ].

(** *** Rules are only ever marked *)

(** Rule by rule, the second list is the first with some rules marked
    conflicting. *)
Definition onlyMarked (rules rules' : list Rule) : Prop :=
  Forall2 (λ r r', getLHS r' = getLHS r ∧ getRHS r' = getRHS r
                   ∧ isPermanent r' = isPermanent r
                   ∧ isPropertyRule r' = isPropertyRule r
                   ∧ (isConflicting r = true → isConflicting r' = true))
          rules rules'.

Definition rulesOnlyMarked (m m' : PropertyMap) : Prop :=
  onlyMarked (Rules (System m)) (Rules (System m')).

Global Instance rulesOnlyMarked_preorder : PreOrder rulesOnlyMarked.
Proof.
  split.
  - intros m. unfold rulesOnlyMarked, onlyMarked. apply Forall_Forall2_diag.
    by apply Forall_true.
  - intros m1 m2 m3 H12 H23. unfold rulesOnlyMarked, onlyMarked in *.
    eapply Forall2_trans; [|exact H12|exact H23].
    intros r1 r2 r3 (?&?&?&?&?) (?&?&?&?&?). repeat split; try congruence. auto.
Qed.

Lemma rulesOnlyMarked_same (m m' : PropertyMap) :
  Rules (System m') = Rules (System m) → rulesOnlyMarked m m'.
Proof.
  intros E. unfold rulesOnlyMarked. rewrite E.
  apply Forall_Forall2_diag. by apply Forall_true.
Qed.

Lemma keeps_rulesOnlyMarked_same {A} (c : M A) :
  (∀ m a m', c m = Ok a m' → Rules (System m') = Rules (System m)) →
  keeps rulesOnlyMarked c.
Proof. intros Hc m a m' E. apply rulesOnlyMarked_same. by eapply Hc. Qed.

Lemma keeps_markConflicting id : keeps rulesOnlyMarked (markConflicting id).
Proof.
  intros m a m' E. unfold markConflicting in E. invert_run.
  unfold rulesOnlyMarked, onlyMarked. simpl.
  match goal with H : _ !! id = Some ?r |- _ =>
    rewrite <- (list_insert_id _ _ _ H) at 1; apply Forall2_insert
  end.
  - apply Forall_Forall2_diag. by apply Forall_true.
  - done.
Qed.

Ltac rules_leaf :=
  first [ apply keeps_markConflicting
        | apply keeps_rulesOnlyMarked_same;
          let E := fresh in
          intros ??? E;
          unfold rebuild, push_back, insertConformance, submit, recordRelation in E;
          by invert_run ].

Section RulesFrame.
Context {env : Collaborators}.

Lemma keeps_rules_compute key kind concreteType w subject substitutions path :
  keeps rulesOnlyMarked
    (computeConstraintTermForTypeWitness key kind concreteType w subject substitutions path).
Proof.
  apply keeps_rulesOnlyMarked_same. intros m [t p'] m' E.
  by destruct (compute_inv _ _ _ _ _ _ _ _ _ _ _ E) as [_ (? & _)].
Qed.

Lemma keeps_rules_concretize key kind ccs concrete assocType :
  keeps rulesOnlyMarked (concretizeTypeWitnessInConformance key kind ccs concrete assocType).
Proof.
  apply keeps_rulesOnlyMarked_same. intros m [] m' E.
  apply concretize_inv in E as (?&?&?&?&?&?&_&_&_&(Hr&_)&->). exact Hr.
Qed.

Lemma keeps_rules_merge c p kind ccs :
  keeps rulesOnlyMarked (recordConcreteConformanceRule c p kind ccs).
Proof.
  apply keeps_rulesOnlyMarked_same. intros m [] m' E.
  by apply recordConcreteConformanceRule_inv in E as (?&?&?&?&?&?&?&->).
Qed.

Lemma keeps_rules_infer concrete substitutions :
  keeps rulesOnlyMarked (inferConditionalRequirements concrete substitutions).
Proof.
  apply keeps_rulesOnlyMarked_same. intros m [] m' E.
  rewrite inferConditionalRequirements_Ok in E. case_bool_decide; by invert_run.
Qed.

Lemma keeps_rules_concretizeForProtocol
    key kind c concreteType substitutions conformances proto p :
  keeps rulesOnlyMarked
    (concretizeForProtocol key kind c concreteType substitutions conformances proto p).
Proof.
  unfold concretizeForProtocol, getRule.
  keeps_steps ltac:(first [ apply keeps_rules_merge | apply keeps_rules_concretize
                          | apply keeps_rules_infer | rules_leaf ]).
Qed.

Lemma keeps_rules_parent
    key kind c concreteType substitutions conformsToRules conformsTo conformances :
  keeps rulesOnlyMarked
    (concretizeNestedTypesFromConcreteParent key kind c concreteType substitutions
       conformsToRules conformsTo conformances).
Proof.
  unfold concretizeNestedTypesFromConcreteParent.
  keeps_steps ltac:(apply keeps_rules_concretizeForProtocol).
Qed.

(** Whatever the pass does to a rule that was there when it started, it is
    at most to mark it conflicting: the rule is found under the same id
    afterwards, with the same sides, permanence and property symbol, and a
    [conflicting] flag that was set is still set.  (The rules the pass
    adds are handed to [addRule] and are not among these.) *)
Theorem pass_only_marks_rules (m m' : PropertyMap) :
  concretizeNestedTypesFromConcreteParents m = Ok () m' →
  ∀ id r, Rules (System m) !! id = Some r →
    ∃ r', Rules (System m') !! id = Some r'
          ∧ getLHS r' = getLHS r ∧ getRHS r' = getRHS r
          ∧ isPermanent r' = isPermanent r
          ∧ isPropertyRule r' = isPropertyRule r
          ∧ (isConflicting r = true → isConflicting r' = true).
Proof.
  intros E.
  assert (Hkeeps : keeps rulesOnlyMarked concretizeNestedTypesFromConcreteParents).
  { unfold concretizeNestedTypesFromConcreteParents, concretizeEntry.
    keeps_steps ltac:(apply keeps_rules_parent). }
  pose proof (Hkeeps m () m' E) as Hall. unfold rulesOnlyMarked, onlyMarked in Hall.
  intros id r Hr.
  destruct (Forall2_lookup_l _ _ _ _ _ Hall Hr) as (r' & Hr' & ?). by exists r'.
Qed.

End RulesFrame.

(** [T => { conforms_to: [P, Q], concrete: Foo<Int, τ_0_0> with <U> }]:
    [Foo] conforms to [P] and not to [Q].  Rule 0 is [T.[P] => T], rule 1 is
    [T.[Q] => T] and rule 2 is [T.[concrete: Foo<Int, τ_0_0> with <U>] => T]. *)
Definition foundAndMissing : PropertyMap :=
  mkMap (mkSystem
           [ mkRule (Example.T ++ [SymProtocol Example.P]) Example.T false false
                    (Some (SymProtocol Example.P));
             mkRule (Example.T ++ [SymProtocol Example.Q]) Example.T false false
                    (Some (SymProtocol Example.Q));
             mkRule (Example.T ++ [Example.FooSymbol]) Example.T false false
                    (Some Example.FooSymbol) ]
           [] [Example.P; Example.Q] [])
        [ PropertyBag.mk Example.T [Example.P; Example.Q] [0; 1]
            (Some Example.FooSymbol) (Some 2) None None [] [] ]
        ∅.

Lemma pass_only_marks_rules_witness :
  ∃ m',
    concretizeNestedTypesFromConcreteParents (env := Example.collaborators [Example.FooP])
      foundAndMissing = Ok () m'
    ∧ length (Submitted (System m')) = 3
    ∧ (∃ r', Rules (System m') !! 0 = Some r'
             ∧ getLHS r' = Example.T ++ [SymProtocol Example.P]
             ∧ getRHS r' = Example.T
             ∧ isConflicting r' = false)
    ∧ (∃ r', Rules (System m') !! 2 = Some r'
             ∧ getLHS r' = Example.T ++ [Example.FooSymbol]
             ∧ getRHS r' = Example.T
             ∧ isConflicting r' = true).
Proof.
  eexists. split; [vm_compute; reflexivity|].
  match goal with
  | |- length (Submitted (System ?m')) = _ ∧ _ =>
      assert (E : concretizeNestedTypesFromConcreteParents
                    (env := Example.collaborators [Example.FooP]) foundAndMissing
                  = Ok () m') by (vm_compute; reflexivity)
  end.
  pose proof (pass_only_marks_rules (env := Example.collaborators [Example.FooP])
                foundAndMissing _ E) as Hall.
  split; [reflexivity|]. split.
  - destruct (Hall 0 _ eq_refl) as (r' & Hr' & Hlhs & Hrhs & _).
    exists r'. split; [exact Hr'|]. split; [exact Hlhs|]. split; [exact Hrhs|].
    vm_compute in Hr'. by injection Hr' as <-.
  - destruct (Hall 2 _ eq_refl) as (r' & Hr' & Hlhs & Hrhs & _).
    exists r'. split; [exact Hr'|]. split; [exact Hlhs|]. split; [exact Hrhs|].
    vm_compute in Hr'. by injection Hr' as <-.
Defined.

(** *** A superclass requirement never marks a rule *)

Definition rulesSame (m m' : PropertyMap) : Prop := Rules (System m') = Rules (System m).
Definition entriesSame (m m' : PropertyMap) : Prop := Entries m' = Entries m.

Global Instance rulesSame_preorder : PreOrder rulesSame.
Proof. split; [done|]. unfold rulesSame. intros ???. congruence. Qed.
Global Instance entriesSame_preorder : PreOrder entriesSame.
Proof. split; [done|]. unfold entriesSame. intros ???. congruence. Qed.

(** A computation only writes to the relations, the protocol map and the
    submitted rules of the rewrite system. *)
Definition writesLogOnly {A} (c : M A) : Prop :=
  ∀ m a m', c m = Ok a m' →
    Rules (System m') = Rules (System m)
    ∧ Entries m' = Entries m
    ∧ ConcreteConformances m' = ConcreteConformances m.

Section LogOnly.
Context {env : Collaborators}.

Lemma writesLogOnly_concretize key kind ccs concrete assocType :
  writesLogOnly (concretizeTypeWitnessInConformance key kind ccs concrete assocType).
Proof.
  intros m [] m' E.
  by apply concretize_inv in E as (?&?&?&?&?&?&_&_&_&(?&_&_&?&?)&->).
Qed.

Lemma writesLogOnly_merge c p kind ccs :
  writesLogOnly (recordConcreteConformanceRule c p kind ccs).
Proof.
  intros m [] m' E.
  by apply recordConcreteConformanceRule_inv in E as (?&?&?&?&?&?&?&->).
Qed.

Lemma writesLogOnly_infer concrete substitutions :
  writesLogOnly (inferConditionalRequirements concrete substitutions).
Proof.
  intros m [] m' E.
  rewrite inferConditionalRequirements_Ok in E. case_bool_decide; by invert_run.
Qed.

Lemma writesLogOnly_forEach {A} (body : A → M unit) xs :
  (∀ x, writesLogOnly (body x)) → writesLogOnly (forEach body xs).
Proof.
  intros Hbody. induction xs as [|x xs IH]; intros m [] m' E; simpl in E.
  - by invert_run.
  - apply bind_inv in E as ([] & m1 & E1 & E2).
    destruct (Hbody x _ _ _ E1) as (?&?&?), (IH _ _ _ E2) as (?&?&?).
    repeat split; congruence.
Qed.

Lemma keeps_rulesSame_log {A} (c : M A) : writesLogOnly c → keeps rulesSame c.
Proof. intros Hc m a m' E. by destruct (Hc m a m' E). Qed.

Lemma keeps_entriesSame_log {A} (c : M A) : writesLogOnly c → keeps entriesSame c.
Proof. intros Hc m a m' E. by destruct (Hc m a m' E) as (_ & ? & _). Qed.

Ltac log_only :=
  first [ apply writesLogOnly_merge | apply writesLogOnly_infer
        | apply writesLogOnly_concretize
        | apply writesLogOnly_forEach; intros ?; apply writesLogOnly_concretize ].

Ltac same_leaf :=
  first [ apply keeps_rulesSame_log; log_only
        | apply keeps_entriesSame_log; log_only
        | let E := fresh in
          intros ??? E;
          unfold push_back, insertConformance, getRule, markConflicting in E;
          unfold rulesSame, entriesSame; by invert_run ].

Lemma keeps_rulesSame_concretizeForProtocol
    key kind c concreteType substitutions conformances proto p :
  kind ≠ SameType →
  keeps rulesSame
    (concretizeForProtocol key kind c concreteType substitutions conformances proto p).
Proof.
  intros Hkind. unfold concretizeForProtocol.
  keeps_steps ltac:(first [ rewrite (bool_decide_false _ Hkind); keeps_pure | same_leaf ]).
Qed.

(** Under a superclass requirement a call of the per-parent concretizer
    marks no rule conflicting, whatever the lookups answer: a missing
    conformance is never a conflict there.  Every rule that was there
    before the call is found under its id after it, exactly as it was.
    (The rules the call adds for a conformance it finds are handed to
    [addRule] and are not among these.) *)
Theorem superclass_requirement_never_marks
    key c concreteType substitutions conformsToRules conformsTo conformances
    (m m' : PropertyMap) :
  concretizeNestedTypesFromConcreteParent key Superclass c concreteType substitutions
    conformsToRules conformsTo conformances m = Ok () m' →
  ∀ id r, Rules (System m) !! id = Some r → Rules (System m') !! id = Some r.
Proof.
  assert (Hkeeps : keeps rulesSame
    (concretizeNestedTypesFromConcreteParent key Superclass c concreteType substitutions
       conformsToRules conformsTo conformances)).
  { unfold concretizeNestedTypesFromConcreteParent.
    keeps_steps ltac:(by apply keeps_rulesSame_concretizeForProtocol). }
  intros E id r Hr. pose proof (Hkeeps m () m' E) as Hsame.
  unfold rulesSame in Hsame. by rewrite Hsame.
Qed.

End LogOnly.

(** The same bag under a superclass requirement: the conformance to [P] is
    found and its three rules are submitted, the conformance to [Q] is
    missing, and the rules of both requirements and of the superclass bound
    stay unmarked. *)
Lemma superclass_requirement_never_marks_witness :
  ∃ m',
    concretizeNestedTypesFromConcreteParent (env := Example.collaborators [Example.FooP])
      Example.T Superclass 2 Example.Foo [Example.U] [0; 1] [Example.P; Example.Q]
      (SuperclassConformancesOf 0) foundAndMissing = Ok () m'
    ∧ length (Submitted (System m')) = 3
    ∧ (∃ r, Rules (System m') !! 1 = Some r
            ∧ getLHS r = Example.T ++ [SymProtocol Example.Q]
            ∧ isConflicting r = false)
    ∧ (∃ r, Rules (System m') !! 2 = Some r
            ∧ getLHS r = Example.T ++ [Example.FooSymbol]
            ∧ isConflicting r = false).
Proof.
  eexists. split; [vm_compute; reflexivity|].
  match goal with
  | |- length (Submitted (System ?m')) = _ ∧ _ =>
      assert (E : concretizeNestedTypesFromConcreteParent
                    (env := Example.collaborators [Example.FooP])
                    Example.T Superclass 2 Example.Foo [Example.U] [0; 1]
                    [Example.P; Example.Q] (SuperclassConformancesOf 0) foundAndMissing
                  = Ok () m') by (vm_compute; reflexivity)
  end.
  pose proof (superclass_requirement_never_marks
                (env := Example.collaborators [Example.FooP])
                Example.T 2 Example.Foo [Example.U] [0; 1] [Example.P; Example.Q]
                (SuperclassConformancesOf 0) foundAndMissing _ E) as Hall.
  split; [reflexivity|]. split.
  - eexists. split; [exact (Hall 1 _ eq_refl)|]. split; reflexivity.
  - eexists. split; [exact (Hall 2 _ eq_refl)|]. split; reflexivity.
Defined.

(** ** The vector of conformances of a bag *)

(** The bags with [hs] appended to the vector a reference points to. *)
Definition appendConformances (r : ConformancesRef) (hs : list ProtocolConformance)
    (entries : list PropertyBag.t) : list PropertyBag.t :=
  match r with
  | ConcreteConformancesOf i =>
      alter (λ b, PropertyBag.setConcreteConformances
                    (PropertyBag.ConcreteConformances b ++ hs) b) i entries
  | SuperclassConformancesOf i =>
      alter (λ b, PropertyBag.setSuperclassConformances
                    (PropertyBag.SuperclassConformances b ++ hs) b) i entries
  end.

Lemma appendConformances_nil r entries : appendConformances r [] entries = entries.
Proof.
  destruct r as [i|i]; simpl; apply list_eq; intros j;
    (destruct (decide (j = i)) as [->|];
     [rewrite list_lookup_alter_eq | by rewrite list_lookup_alter_ne]);
    destruct (entries !! i) as [[]|]; simpl; by rewrite ?app_nil_r.
Qed.

Lemma appendConformances_app r hs1 hs2 entries :
  appendConformances r hs2 (appendConformances r hs1 entries)
  = appendConformances r (hs1 ++ hs2) entries.
Proof.
  destruct r as [i|i]; simpl; apply list_eq; intros j;
    (destruct (decide (j = i)) as [->|];
     [rewrite !list_lookup_alter_eq | by rewrite !list_lookup_alter_ne]);
    destruct (entries !! i) as [[]|]; simpl; by rewrite ?app_assoc.
Qed.

Lemma readConformances_append r hs (m m' : PropertyMap) :
  is_Some (Entries m !! refIndex r) →
  Entries m' = appendConformances r hs (Entries m) →
  readConformances r m' = readConformances r m ++ hs.
Proof.
  intros [b Hb] E. destruct r as [i|i]; simpl in *;
    by rewrite E, list_lookup_alter_eq, Hb.
Qed.

Lemma writesLogOnly_bind {A B} (c : M A) (f : A → M B) :
  writesLogOnly c → (∀ a, writesLogOnly (f a)) → writesLogOnly (c ≫= f).
Proof.
  intros Hc Hf m b m' (a & m1 & E1 & E2)%bind_inv.
  destruct (Hc _ _ _ E1) as (?&?&?), (Hf _ _ _ _ E2) as (?&?&?).
  repeat split; congruence.
Qed.

Lemma writesLogOnly_ret {A} (a : A) : writesLogOnly (mret a).
Proof. intros m b m' E. by invert_run. Qed.

Section Vector.
Context {env : Collaborators}.

(** One pass of the loop body appends to the vector the conformance that
    the cache holds for the pair afterwards, if it holds one, and changes
    nothing else in the bags. *)
Lemma concretizeForProtocol_entries
    key kind c concreteType substitutions conformances proto p (m m' : PropertyMap) :
  concretizeForProtocol key kind c concreteType substitutions conformances proto p m
    = Ok () m' →
  Entries m'
  = appendConformances conformances (option_list (ConcreteConformances m' !! (c, p)))
      (Entries m).
Proof.
  unfold concretizeForProtocol. intros E.
  rewrite (bind_Ok getMap _ m m m) in E by done.
  destruct (ConcreteConformances m !! (c, p)) as [found|] eqn:Hcache.
  { unfold push_back in E. invert_run. simpl. rewrite Hcache. by destruct conformances. }
  destruct (lookupConformance concreteType proto) as [| |concrete].
  - assert (Entries m' = Entries m ∧ ConcreteConformances m' = ConcreteConformances m)
      as [-> ->].
    { unfold getRule, markConflicting in E. by invert_run. }
    rewrite Hcache. simpl. by rewrite appendConformances_nil.
  - done.
  - unfold insertConformance in E. rewrite (bind_assoc getMap) in E.
    rewrite (bind_Ok getMap _ m m m) in E by done. rewrite Hcache in E.
    unfold push_back in E.
    apply bind_inv in E as (b & m1 & E1 & E). invert_run.
    all: repeat match goal with u : () |- _ => destruct u end.
    all: match goal with
         | H1 : recordConcreteConformanceRule _ _ _ _ ?m0 = Ok () ?m2,
           H2 : forEach _ _ ?m2 = Ok () ?m3 |- _ =>
             destruct (writesLogOnly_merge _ _ _ _ _ _ _ H1) as (_ & He1 & Hc1);
             destruct (writesLogOnly_forEach _ _
                         (λ x, writesLogOnly_concretize _ _ _ _ x) _ _ _ H2)
               as (_ & He2 & Hc2)
         end.
    + match goal with
      | H : inferConditionalRequirements _ _ _ = Ok () _ |- _ =>
          destruct (writesLogOnly_infer _ _ _ _ _ H) as (_ & He3 & Hc3)
      end.
      rewrite He3, He2, He1, Hc3, Hc2, Hc1. simpl.
      rewrite lookup_insert_eq. by destruct conformances.
    + rewrite He2, He1, Hc2, Hc1. simpl.
      rewrite lookup_insert_eq. by destruct conformances.
Qed.

(** What the loop over the conformance rules leaves in the cache for a rule
    it does not visit. *)
Lemma forEach_body_cache_other
    key kind c concreteType substitutions conformances
    (ps : list (ProtocolDecl * nat)) (m m' : PropertyMap) id :
  forEach (λ '(proto, conformanceRuleID),
             concretizeForProtocol key kind c concreteType substitutions conformances
               proto conformanceRuleID) ps m = Ok () m' →
  id ∉ ps.*2 →
  ConcreteConformances m' !! (c, id) = ConcreteConformances m !! (c, id).
Proof.
  revert m. induction ps as [|[proto p] ps IH]; intros m E Hid; simpl in E.
  - by invert_run.
  - apply bind_inv in E as ([] & m1 & E1 & E2).
    rewrite fmap_cons, not_elem_of_cons in Hid. destruct Hid as [Hne Hid].
    rewrite (IH _ E2 Hid).
    apply concretizeForProtocol_step in E1
      as [Hview|(_ & concrete & merged & rest & Hc & _)].
    + by injection Hview as _ ->.
    + simpl in Hc. rewrite Hc. apply lookup_insert_ne. by intros [= ->].
Qed.

(** After a call of the per-parent concretizer for conformance rules that
    are all different, the vector it was given has grown by the cached
    conformance of every conformance rule that has one, in the order of the
    rules; a rule whose protocol the concrete type does not conform to
    contributes nothing.  Nothing else in the bags has changed. *)
Theorem conformances_vector_follows_cache
    key kind c concreteType substitutions conformsToRules conformsTo conformances
    (m m' : PropertyMap) :
  NoDup conformsToRules →
  concretizeNestedTypesFromConcreteParent key kind c concreteType substitutions
    conformsToRules conformsTo conformances m = Ok () m' →
  let appended := omap (λ id, ConcreteConformances m' !! (c, id)) conformsToRules in
  Entries m' = appendConformances conformances appended (Entries m)
  ∧ (is_Some (Entries m !! refIndex conformances) →
     readConformances conformances m' = readConformances conformances m ++ appended).
Proof.
  intros Hnodup E appended.
  assert (Hentries : Entries m' = appendConformances conformances appended (Entries m)).
  2: { split; [done|]. intros Hvalid. by apply readConformances_append. }
  unfold concretizeNestedTypesFromConcreteParent in E.
  invert_run.
  match goal with H : bool_decide (length _ = length _) = true |- _ =>
    apply bool_decide_eq_true in H; rename H into Hlen end.
  subst appended. rewrite <- (snd_zip conformsTo conformsToRules) by lia.
  rewrite <- (snd_zip conformsTo conformsToRules) in Hnodup by lia.
  revert E Hnodup. generalize (zip conformsTo conformsToRules). clear Hlen.
  intros ps. revert m. induction ps as [|[proto p] ps IH]; intros m E Hnodup; simpl in E.
  - invert_run. simpl. by rewrite appendConformances_nil.
  - apply bind_inv in E as ([] & m1 & E1 & E2).
    rewrite fmap_cons in Hnodup. apply NoDup_cons in Hnodup as [Hp Hnodup].
    rewrite (IH _ E2 Hnodup), (concretizeForProtocol_entries _ _ _ _ _ _ _ _ _ _ E1).
    rewrite appendConformances_app. f_equal.
    rewrite fmap_cons. simpl in *.
    rewrite (forEach_body_cache_other _ _ _ _ _ _ _ _ _ p E2 Hp).
    by destruct (ConcreteConformances m1 !! (c, p)).
Qed.

End Vector.

Lemma conformances_vector_follows_cache_witness :
  ∃ m',
    concretizeNestedTypesFromConcreteParent (env := Example.collaborators [Example.FooP])
      Example.T SameType 1 Example.Foo [Example.U] [0] [Example.P] (ConcreteConformancesOf 0)
      Example.start = Ok () m'
    ∧ readConformances (ConcreteConformancesOf 0) m' = [Example.FooP].
Proof.
  eexists. split; [vm_compute; reflexivity|].
  match goal with
  | |- readConformances _ ?m' = _ =>
      assert (E : concretizeNestedTypesFromConcreteParent
                    (env := Example.collaborators [Example.FooP])
                    Example.T SameType 1 Example.Foo [Example.U] [0] [Example.P]
                    (ConcreteConformancesOf 0) Example.start = Ok () m')
        by (vm_compute; reflexivity)
  end.
  destruct (conformances_vector_follows_cache (env := Example.collaborators [Example.FooP])
              Example.T SameType 1 Example.Foo [Example.U] [0] [Example.P]
              (ConcreteConformancesOf 0) Example.start _ (NoDup_singleton 0) E)
    as [_ Hread].
  rewrite Hread; [vm_compute; reflexivity | by eexists].
Defined.

(** ** Marking a conflict twice *)

Lemma alter_twice_idemp (f : Rule → Rule) (rules : list Rule) c p :
  (∀ x, f (f x) = f x) →
  alter f p (alter f c (alter f p (alter f c rules))) = alter f p (alter f c rules).
Proof.
  intros Hf. apply list_eq. intros i.
  destruct (rules !! i) as [r|] eqn:Hr.
  - rewrite (lookup_alter_twice f _ c p i _ Hf
               (lookup_alter_twice f rules c p i r Hf Hr)).
    rewrite (lookup_alter_twice f rules c p i r Hf Hr).
    case_bool_decide; by rewrite ?Hf.
  - apply lookup_ge_None in Hr.
    rewrite !(proj2 (lookup_ge_None _ _)); [done|by rewrite !length_alter..].
Qed.

Section Idempotent.
Context {env : Collaborators}.

(** Detecting the same conflict again changes nothing: after a pass of the
    loop body that found no conformance under a same-type requirement, a
    second pass for the same pair returns the state it was given. *)
Theorem conflict_marking_is_idempotent
    key c p concreteType substitutions conformances proto (m : PropertyMap) rc rp :
  ConcreteConformances m !! (c, p) = None →
  lookupConformance concreteType proto = InvalidConformance →
  Rules (System m) !! c = Some rc →
  Rules (System m) !! p = Some rp →
  ∃ m1,
    concretizeForProtocol key SameType c concreteType substitutions conformances proto p m
      = Ok () m1
    ∧ concretizeForProtocol key SameType c concreteType substitutions conformances proto p m1
      = Ok () m1.
Proof.
  intros Hcache Hlookup Hc Hp. eexists. split.
  { by eapply missing_conformance_SameType. }
  erewrite missing_conformance_SameType; [|done|done|..]; simpl.
  - by rewrite (alter_twice_idemp _ _ _ _ (markIfKeyLength_idemp key)).
  - by apply lookup_alter_twice; [apply markIfKeyLength_idemp|].
  - by apply lookup_alter_twice; [apply markIfKeyLength_idemp|].
Qed.

End Idempotent.

Lemma conflict_marking_is_idempotent_witness :
  ∃ m1,
    concretizeForProtocol (env := Example.collaborators [])
      Example.TV SameType 0 Example.Bar [] (ConcreteConformancesOf 0) Example.P 1
      Example.inherited = Ok () m1
    ∧ concretizeForProtocol (env := Example.collaborators [])
        Example.TV SameType 0 Example.Bar [] (ConcreteConformancesOf 0) Example.P 1 m1
      = Ok () m1.
Proof.
  exact (conflict_marking_is_idempotent (env := Example.collaborators [])
           Example.TV 0 1 Example.Bar [] (ConcreteConformancesOf 0) Example.P
           Example.inherited _ _ eq_refl eq_refl eq_refl eq_refl).
Defined.

(** ** Bags the pass has nothing to do for *)

(** A bag without conformance requirements, or with neither a concrete type
    nor a superclass bound. *)
Definition nothingToConcretize (props : PropertyBag.t) : Prop :=
  PropertyBag.getConformsTo props = []
  ∨ (PropertyBag.ConcreteType props = None ∧ PropertyBag.SuperclassType props = None).

Section Skipped.
Context {env : Collaborators}.

Lemma concretizeEntry_skipped i (m : PropertyMap) props :
  Entries m !! i = Some props → nothingToConcretize props → concretizeEntry i m = Ok () m.
Proof.
  intros Hi Hskip. unfold concretizeEntry.
  rewrite (bind_Ok getMap _ m m m) by done. rewrite Hi. simpl. mnorm.
  destruct Hskip as [Hnone|[Hc Hs]].
  - by rewrite bool_decide_true.
  - case_bool_decide; [done|].
    unfold PropertyBag.isConcreteType, PropertyBag.hasSuperclassBound.
    rewrite Hc, Hs.
    rewrite !bool_decide_false by (by intros [? ?]). by mnorm.
Qed.

(** When no bag has both a conformance requirement and a concrete type or
    superclass bound (an empty property map is the least such case), the
    pass returns and leaves the property map and the rewrite system exactly
    as they were. *)
Theorem pass_without_candidates_changes_nothing (m : PropertyMap) :
  Forall nothingToConcretize (Entries m) →
  concretizeNestedTypesFromConcreteParents m = Ok () m.
Proof.
  intros Hall. unfold concretizeNestedTypesFromConcreteParents.
  rewrite (bind_Ok getMap _ m m m) by done.
  assert (Hseq : ∀ i, i ∈ seq 0 (length (Entries m)) →
                      ∃ props, Entries m !! i = Some props ∧ nothingToConcretize props).
  { intros i [_ Hi]%elem_of_seq. destruct (lookup_lt_is_Some_2 _ _ Hi) as [props Hp].
    exists props. split; [done|]. by eapply Forall_lookup_1. }
  induction (seq 0 (length (Entries m))) as [|i rest IH]; [done|].
  simpl. destruct (Hseq i) as (props & Hp & Hskip); [left|].
  erewrite bind_Ok by by eapply concretizeEntry_skipped.
  apply IH. intros j Hj. apply Hseq. by right.
Qed.

End Skipped.

Lemma pass_without_candidates_changes_nothing_witness :
  concretizeNestedTypesFromConcreteParents (env := Example.collaborators [Example.FooP])
    (mkMap (System Example.start)
           [PropertyBag.mk Example.T [] [] (Some Example.FooSymbol) (Some 1) None None [] [];
            PropertyBag.mk Example.U [Example.P] [0] None None None None [] []]
           ∅)
  = Ok () (mkMap (System Example.start)
           [PropertyBag.mk Example.T [] [] (Some Example.FooSymbol) (Some 1) None None [] [];
            PropertyBag.mk Example.U [Example.P] [0] None None None None [] []]
           ∅).
Proof.
  apply pass_without_candidates_changes_nothing. simpl.
  apply Forall_cons. split; [left; reflexivity|].
  apply Forall_cons. split; [right; split; reflexivity|].
  apply Forall_nil_2.
Defined.

(** ** Where cached conformances come from *)

Section CacheOrigin.
Context {env : Collaborators}.

(** The second cache has every entry of the first, unchanged, and every
    entry it has besides is a concrete conformance that [lookupConformance]
    returned. *)
Definition cacheGrowsFromLookup (m m' : PropertyMap) : Prop :=
  ConcreteConformances m ⊆ ConcreteConformances m'
  ∧ ∀ pair concrete,
      ConcreteConformances m' !! pair = Some concrete →
      ConcreteConformances m !! pair = Some concrete
      ∨ ∃ concreteType proto,
          lookupConformance concreteType proto = ConcreteConformance concrete.

Global Instance cacheGrowsFromLookup_preorder : PreOrder cacheGrowsFromLookup.
Proof.
  split.
  - intros m. split; [done|]. intros pair concrete H. by left.
  - intros m1 m2 m3 [Hsub12 H12] [Hsub23 H23]. split; [by etrans|].
    intros pair concrete H3. destruct (H23 _ _ H3) as [H2|?]; [|by right].
    by apply H12.
Qed.

Lemma keeps_cache_concretizeForProtocol
    key kind c concreteType substitutions conformances proto p :
  keeps cacheGrowsFromLookup
    (concretizeForProtocol key kind c concreteType substitutions conformances proto p).
Proof.
  intros m [] m' E.
  apply concretizeForProtocol_inv in E
    as [[_ Hview]|(Hnone & found & merged & ws & Hlookup & Hc & _)].
  - unfold view in Hview. injection Hview as _ Hcache. split.
    + by rewrite Hcache.
    + intros pair concrete H. left. by rewrite <- Hcache.
  - split.
    + rewrite Hc. by apply insert_subseteq.
    + intros pair concrete. rewrite Hc.
      destruct (decide (pair = (c, p))) as [->|Hne].
      * rewrite lookup_insert_eq. intros [= <-]. right. by eexists _, _.
      * rewrite lookup_insert_ne by done. by left.
Qed.

(** The pass only adds to the cache of concrete conformances: an entry
    that was cached before the pass is still cached with the same
    conformance after it, and every entry the pass adds is a concrete
    conformance returned by the conformance lookup, so no abstract and no
    invalid conformance is ever cached. *)
Theorem cache_only_grows_from_lookup (m m' : PropertyMap) :
  concretizeNestedTypesFromConcreteParents m = Ok () m' →
  (∀ pair concrete,
     ConcreteConformances m !! pair = Some concrete →
     ConcreteConformances m' !! pair = Some concrete)
  ∧ ∀ pair concrete,
      ConcreteConformances m' !! pair = Some concrete →
      ConcreteConformances m !! pair = Some concrete
      ∨ ∃ concreteType proto,
          lookupConformance concreteType proto = ConcreteConformance concrete.
Proof.
  intros E.
  assert (Hkeeps : keeps cacheGrowsFromLookup concretizeNestedTypesFromConcreteParents).
  { unfold concretizeNestedTypesFromConcreteParents, concretizeEntry,
      concretizeNestedTypesFromConcreteParent.
    keeps_steps ltac:(apply keeps_cache_concretizeForProtocol). }
  destruct (Hkeeps m () m' E) as [Hsub Hnew]. split; [|exact Hnew].
  intros pair concrete H. by eapply lookup_weaken.
Qed.

End CacheOrigin.

Lemma cache_only_grows_from_lookup_witness :
  ∃ m',
    concretizeNestedTypesFromConcreteParents (env := Example.collaborators [Example.FooP])
      Example.start = Ok () m'
    ∧ ConcreteConformances Example.start = ∅
    ∧ ∀ pair concrete,
        ConcreteConformances m' !! pair = Some concrete →
        ∃ concreteType proto,
          lookupConformance (Collaborators := Example.collaborators [Example.FooP])
            concreteType proto = ConcreteConformance concrete.
Proof.
  eexists. split; [vm_compute; reflexivity|]. split; [reflexivity|].
  match goal with
  | |- ∀ pair concrete, ConcreteConformances ?m' !! _ = _ → _ =>
      assert (E : concretizeNestedTypesFromConcreteParents
                    (env := Example.collaborators [Example.FooP]) Example.start
                  = Ok () m') by (vm_compute; reflexivity)
  end.
  destruct (cache_only_grows_from_lookup (env := Example.collaborators [Example.FooP])
              _ _ E) as [_ Hnew].
  intros pair concrete H. destruct (Hnew pair concrete H) as [Hold|Hlookup].
  - vm_compute in Hold. discriminate Hold.
  - exact Hlookup.
Defined.

(** ** Assertions the pass cannot trip *)

(** The failures the code rules out by itself: the assertion on the
    requirement kind, the assertion that the insertion in the cache took
    place, the assertion that a path is not empty, and reading before the
    end of the subject term or past the end of [Entries]. *)
Definition ruledOut (f : Failure) : bool :=
  match f with
  | BadRequirementKind | AlreadyInserted | EmptyPath | TermTooShort | NoSuchEntry => true
  | _ => false
  end.

(** Started from a map with [n] property bags, the computation either
    returns a value that satisfies [Q] together with a map that has [n]
    property bags, or fails with a failure that is not ruled out. *)
Definition guarded (n : nat) {A} (c : M A) (Q : A → Prop) : Prop :=
  ∀ m, length (Entries m) = n →
    match c m with
    | Ok a m' => length (Entries m') = n ∧ Q a
    | Failed f => ruledOut f = false
    end.

Lemma guarded_bind n {A B} (c : M A) (f : A → M B) (Q1 : A → Prop) (Q : B → Prop) :
  guarded n c Q1 → (∀ a, Q1 a → guarded n (f a) Q) → guarded n (c ≫= f) Q.
Proof.
  intros Hc Hf m Hm. specialize (Hc m Hm). unfold mbind, M_bind.
  destruct (c m) as [a m1|e]; [|done]. destruct Hc as [Hm1 Ha]. by apply Hf.
Qed.

Lemma guarded_weaken n {A} (c : M A) (Q Q' : A → Prop) :
  guarded n c Q → (∀ a, Q a → Q' a) → guarded n c Q'.
Proof.
  intros Hc HQ m Hm. specialize (Hc m Hm). destruct (c m); [|done].
  destruct Hc. split; auto.
Qed.

Lemma guarded_ret n {A} (a : A) (Q : A → Prop) : Q a → guarded n (mret a) Q.
Proof. by intros Ha m Hm. Qed.

Lemma guarded_ret_True n {A} (a : A) : guarded n (mret a) (λ _, True).
Proof. by apply guarded_ret. Qed.

Lemma guarded_same n {A} (c : M A) :
  (∀ m, ∃ a m', c m = Ok a m' ∧ Entries m' = Entries m) → guarded n c (λ _, True).
Proof.
  intros Hc m Hm. destruct (Hc m) as (a & m' & E & Hsame). rewrite E.
  split; [congruence | done].
Qed.

Lemma guarded_forEach n {A} (body : A → M unit) xs :
  (∀ x, x ∈ xs → guarded n (body x) (λ _, True)) →
  guarded n (forEach body xs) (λ _, True).
Proof.
  induction xs as [|x xs IH]; intros Hbody; simpl.
  - apply guarded_ret_True.
  - eapply guarded_bind; [apply Hbody; by left|]. intros _ _. apply IH.
    intros y Hy. apply Hbody. by right.
Qed.

Lemma guarded_assert n b e :
  (ruledOut e = true → b = true) → guarded n (assert b e) (λ _, True).
Proof.
  intros Hb m Hm. destruct b; simpl; [done|]. unfold fail.
  destruct (ruledOut e); [|done]. by discriminate Hb.
Qed.

Lemma guarded_deref n {A} (o : option A) e :
  (ruledOut e = true → is_Some o) → guarded n (deref o e) (λ a, o = Some a).
Proof.
  intros Ho m Hm. destruct o; simpl; [done|]. unfold fail.
  destruct (ruledOut e); [|done]. by destruct (Ho eq_refl).
Qed.

Lemma guarded_fail n {A} e (Q : A → Prop) :
  ruledOut e = false → guarded n (fail (A := A) e) Q.
Proof. by intros He m Hm. Qed.

Lemma guarded_getMap n : guarded n getMap (λ m, length (Entries m) = n).
Proof. by intros m Hm. Qed.

Lemma guarded_recordRelation n lhs rhs : guarded n (recordRelation lhs rhs) (λ _, True).
Proof. apply guarded_same. intros m. rewrite recordRelation_Ok. by eexists _, _. Qed.

Lemma guarded_submit n e : guarded n (submit e) (λ _, True).
Proof. apply guarded_same. intros m. rewrite submit_Ok. by eexists _, _. Qed.

Lemma guarded_push_back n r c : guarded n (push_back r c) (λ _, True).
Proof.
  intros m Hm. unfold push_back. run. split; [|done].
  destruct r; by rewrite length_alter.
Qed.

(** [guarded_steps leaf side] goes through binds, loops and branches;
    [leaf] settles the calls, [side] the conditions of the assertions and
    of the accesses that are ruled out. *)
Ltac guarded_steps leaf side :=
  repeat match goal with
  | |- guarded _ (mret _) _ =>
      first [apply guarded_ret_True | apply guarded_ret; cbv beta in *; side]
  | |- guarded _ getMap _ => apply guarded_getMap
  | |- guarded _ (recordRelation _ _) _ => apply guarded_recordRelation
  | |- guarded _ (submit _) _ => apply guarded_submit
  | |- guarded _ (push_back _ _) _ => apply guarded_push_back
  | |- guarded _ (fail _) _ => apply guarded_fail; reflexivity
  | |- guarded _ (assert _ _) _ =>
      apply guarded_assert;
      first [ let H := fresh in intros H; vm_compute in H; discriminate H
            | intros _; cbv beta in *; side ]
  | |- guarded _ (deref _ _) _ =>
      apply guarded_deref;
      first [ let H := fresh in intros H; vm_compute in H; discriminate H
            | intros _; cbv beta in *; side ]
  | |- guarded _ (_ ≫= _) _ => eapply guarded_bind; [|intros ? ?; cbv beta in *]
  | |- guarded _ (forEach _ _) _ => apply guarded_forEach; intros ? ?
  | |- guarded _ (if ?b then _ else _) _ => destruct b
  | |- guarded _ (match ?o with _ => _ end) _ => destruct o
  | |- guarded _ _ _ => solve [leaf]
  end.

Ltac guarded_at n Hm :=
  match goal with
  | |- match ?c ?m with _ => _ end =>
      let Hc := fresh in
      enough (guarded n c (λ _, True)) as Hc by (apply Hc; exact Hm)
  end.

Section Guarded.
Context {env : Collaborators}.

Lemma guarded_getRule n id : guarded n (getRule id) (λ _, True).
Proof.
  unfold getRule. eapply guarded_bind; [apply guarded_getMap|]. intros m _.
  eapply guarded_weaken; [apply guarded_deref|done]. intros H. vm_compute in H. discriminate H.
Qed.

Lemma guarded_markConflicting n id : guarded n (markConflicting id) (λ _, True).
Proof.
  unfold markConflicting. eapply guarded_bind; [apply guarded_getMap|]. intros m _.
  eapply guarded_bind;
    [apply guarded_deref; intros H; vm_compute in H; discriminate H|].
  intros r _. apply guarded_same. intros m'. by eexists _, _.
Qed.

(** With a subject term of two symbols or more, the function never reads
    before its start, and the path it returns has a step. *)
Lemma guarded_compute n key kind concreteType w subject substitutions path :
  2 ≤ length subject →
  guarded n (computeConstraintTermForTypeWitness key kind concreteType w subject
               substitutions path)
            (λ r, r.2 ≠ []).
Proof.
  intros Hlen.
  unfold computeConstraintTermForTypeWitness, recordConcreteTypeWitnessRelation,
    recordSameTypeWitnessRelation.
  guarded_steps ltac:(fail)
    ltac:(first
      [ by apply bool_decide_eq_true_2
      | apply lookup_lt_is_Some; lia
      | simpl; let H := fresh in
        intros H%(f_equal length); rewrite ?length_app in H; simpl in H; lia ]).
Qed.

(** [assert(!path.empty())] holds. *)
Lemma guarded_concretize n key kind ccs concrete assocType :
  guarded n (concretizeTypeWitnessInConformance key kind ccs concrete assocType)
            (λ _, True).
Proof.
  unfold concretizeTypeWitnessInConformance, addRule.
  guarded_steps
    ltac:(apply guarded_compute; rewrite !length_app; simpl; lia)
    ltac:(simpl in *; by rewrite bool_decide_false).
Qed.

Lemma guarded_merge n c p kind ccs :
  guarded n (recordConcreteConformanceRule c p kind ccs) (λ _, True).
Proof.
  unfold recordConcreteConformanceRule, recordConcreteConformanceRelation, addRule.
  guarded_steps ltac:(apply guarded_getRule) ltac:(fail).
Qed.

Lemma guarded_infer n concrete substitutions :
  guarded n (inferConditionalRequirements concrete substitutions) (λ _, True).
Proof.
  apply guarded_same. intros m. rewrite inferConditionalRequirements_Ok.
  case_bool_decide; by eexists _, _.
Qed.

(** [assert(inserted.second)] holds: the pair is inserted only after [find]
    has missed it, with the map untouched in between. *)
Lemma guarded_concretizeForProtocol
    n key kind c concreteType substitutions conformances proto p :
  guarded n (concretizeForProtocol key kind c concreteType substitutions
               conformances proto p)
            (λ _, True).
Proof.
  intros m Hm. unfold concretizeForProtocol.
  rewrite (bind_Ok getMap _ m m m) by done.
  destruct (ConcreteConformances m !! (c, p)) as [found|] eqn:Hcache.
  { by apply guarded_push_back. }
  destruct (lookupConformance concreteType proto) as [| |concrete].
  - guarded_at n Hm.
    guarded_steps
      ltac:(first [apply guarded_getRule | apply guarded_markConflicting]) ltac:(fail).
  - reflexivity.
  - unfold insertConformance. rewrite (bind_assoc getMap).
    rewrite (bind_Ok getMap _ m m m) by done. rewrite Hcache.
    mnorm. erewrite (bind_Ok (putConcreteConformances _)) by reflexivity.
    mnorm. simpl. mnorm.
    match goal with
    | |- match ?c ?m1 with _ => _ end =>
        enough (guarded n c (λ _, True)) as Hc by (apply Hc; exact Hm)
    end.
    guarded_steps
      ltac:(first [ apply guarded_merge | apply guarded_concretize | apply guarded_infer ])
      ltac:(fail).
Qed.

(** [assert(requirementKind == SameType || requirementKind == Superclass)]
    holds for the two kinds the pass calls the function with. *)
Lemma guarded_parent
    n key kind c concreteType substitutions conformsToRules conformsTo conformances :
  kind = SameType ∨ kind = Superclass →
  guarded n (concretizeNestedTypesFromConcreteParent key kind c concreteType
               substitutions conformsToRules conformsTo conformances)
            (λ _, True).
Proof.
  intros Hkind. unfold concretizeNestedTypesFromConcreteParent.
  guarded_steps ltac:(apply guarded_concretizeForProtocol)
    ltac:(by destruct Hkind as [-> | ->]).
Qed.

Lemma guarded_concretizeEntry n i :
  i < n → guarded n (concretizeEntry i) (λ _, True).
Proof.
  intros Hi. unfold concretizeEntry.
  guarded_steps ltac:(apply guarded_parent; auto)
    ltac:(apply lookup_lt_is_Some; lia).
Qed.

(** Whatever the property map holds, the pass trips none of the assertions
    on the requirement kind, on the insertion in the cache and on the
    non-empty path, and reads neither before the start of a subject term
    nor past the end of the property bags.  If it fails, it is for a
    property map or a collaborator that breaks what the pass expects of
    them; and if it returns, the number of property bags is unchanged. *)
Theorem pass_assertions_hold (m : PropertyMap) :
  match concretizeNestedTypesFromConcreteParents m with
  | Ok _ m' => length (Entries m') = length (Entries m)
  | Failed f =>
      f ∈ [SizeMismatch; AbstractConformanceFound; DifferenceMismatch;
           NoSuchRule; EmptyOptional; WrongSymbolKind]
  end.
Proof.
  assert (Hpass : guarded (length (Entries m)) concretizeNestedTypesFromConcreteParents
                    (λ _, True)).
  { unfold concretizeNestedTypesFromConcreteParents.
    eapply guarded_bind; [apply guarded_getMap|]. intros m1 Hm1.
    apply guarded_forEach. intros i Hi%elem_of_seq.
    apply guarded_concretizeEntry. cbv beta in Hm1. lia. }
  specialize (Hpass m eq_refl).
  destruct (concretizeNestedTypesFromConcreteParents m) as [a m'|f]; [by destruct Hpass|].
  destruct f; try discriminate Hpass; set_solver.
Qed.

End Guarded.

(** ** A pass that caches nothing submits nothing *)

Lemma pairStep_size (c p : nat) (v v' : list Submission * gmap (nat * nat) ProtocolConformance) :
  pairStep c p v v' →
  size v.2 ≤ size v'.2 ∧ (size v'.2 ≤ size v.2 → v' = v).
Proof.
  intros [->|(Hnone & concrete & merged & rest & Hcache & _)]; [done|].
  rewrite Hcache, map_size_insert_None by done. lia.
Qed.

Lemma anyStep_rtc_size (v v' : list Submission * gmap (nat * nat) ProtocolConformance) :
  rtc anyStep v v' →
  size v.2 ≤ size v'.2 ∧ (size v'.2 ≤ size v.2 → v' = v).
Proof.
  induction 1 as [v|v1 v2 v3 (c & p & Hstep) _ [Hle IH]]; [done|].
  apply pairStep_size in Hstep as [Hle12 H12]. split; [lia|].
  intros Hback. rewrite IH by lia. apply H12. lia.
Qed.

Section Quiescent.
Context {env : Collaborators}.

(** Rules are submitted only together with a new entry of the cache: the
    cache never has fewer entries after the pass than before it, and a pass
    that leaves the cache with as many entries as it found submits no rule
    at all and leaves the cache as it was. *)
Theorem pass_without_new_conformance_submits_nothing (m m' : PropertyMap) :
  concretizeNestedTypesFromConcreteParents m = Ok () m' →
  size (ConcreteConformances m) ≤ size (ConcreteConformances m')
  ∧ (size (ConcreteConformances m') = size (ConcreteConformances m) →
     Submitted (System m') = Submitted (System m)
     ∧ ConcreteConformances m' = ConcreteConformances m).
Proof.
  intros E.
  apply reaches_concretizeNestedTypesFromConcreteParents, anyStep_rtc_size in E
    as [Hle Hsame].
  split; [exact Hle|]. intros Hsize. unfold view in Hsame. simpl in *.
  assert (Hview : (Submitted (System m'), ConcreteConformances m')
                  = (Submitted (System m), ConcreteConformances m)) by (apply Hsame; lia).
  by injection Hview as -> ->.
Qed.

End Quiescent.

Lemma pass_without_new_conformance_submits_nothing_witness :
  ∃ m1 m2,
    concretizeNestedTypesFromConcreteParents (env := Example.collaborators [Example.FooP])
      Example.start = Ok () m1
    ∧ concretizeNestedTypesFromConcreteParents (env := Example.collaborators [Example.FooP])
        m1 = Ok () m2
    ∧ size (ConcreteConformances Example.start) < size (ConcreteConformances m1)
    ∧ Submitted (System m2) = Submitted (System m1)
    ∧ ConcreteConformances m2 = ConcreteConformances m1.
Proof.
  eexists. eexists. split; [vm_compute; reflexivity|].
  match goal with
  | |- ?pass ?m1 = Ok () ?m2 ∧ _ =>
      assert (E : pass m1 = Ok () m2) by (vm_compute; reflexivity)
  end.
  split; [exact E|].
  split; [vm_compute; lia|].
  apply (pass_without_new_conformance_submits_nothing
           (env := Example.collaborators [Example.FooP]) _ _ E).
  vm_compute. reflexivity.
Defined.
